(** * Service config: parsing the JSON tree into a method config table

    A shallow embedding of [src/core/lib/transport/service_config.c].
    The JSON tree, the interned strings and the hash table are external to
    that file; they are modelled here only as far as the file uses them.

    Conventions.
    - A C pointer that may be NULL is an [option]; a returned NULL is [None].
    - A linked list threaded through [next] is a Rocq list, and each [for]
      loop over it is a [Fixpoint] on that list carrying the loop's locals.
    - [size_t] counters are [nat]: each unit counted is a node of the tree
      held in memory, so the counters stay far below the word size.
    - Operations without a defined result in C (arithmetic on a null
      pointer, a store past the end of an array, a failed [GPR_ASSERT]) are
      guarded: the embedding stops with a [fault]. *)

From Stdlib Require Import String Ascii.
From stdpp Require Import gmap gmultiset strings list fin_maps.

Set Warnings "-register-all".
Open Scope string_scope.
Open Scope list_scope.

(** ** The JSON tree *)

(** Modelled from the spec: the node type of the external document parser
    ([grpc_json], declared in json.h).  A node has a type tag, an optional
    key, an optional scalar text and ordered children. *)
Inductive grpc_json_type :=
  | GRPC_JSON_OBJECT
  | GRPC_JSON_ARRAY
  | GRPC_JSON_STRING
  | GRPC_JSON_NUMBER
  | GRPC_JSON_TRUE
  | GRPC_JSON_FALSE
  | GRPC_JSON_NULL.

#[global] Instance grpc_json_type_eq_dec : EqDecision grpc_json_type.
Proof. solve_decision. Defined.

Inductive grpc_json := Json {
  key : option string;
  type : grpc_json_type;
  value : option string;
  child : list grpc_json
}.

Record grpc_service_config := ServiceConfig {
  json_string : string;
  json_tree : grpc_json
}.

(** [strcmp(a, b) == 0] *)
Definition streq (a b : string) : bool := String.eqb a b.

(** ** grpc_service_config_create *)

Section Create.
(** The external parser: [None] is a NULL tree. *)
Variable grpc_json_parse_string : string → option grpc_json.

Definition grpc_service_config_create (text : string)
  : option grpc_service_config :=
  match grpc_json_parse_string text with
  | None => None
  | Some tree => Some (ServiceConfig text tree)
  end.
End Create.

(** ** grpc_service_config_get_lb_policy_name *)

(** The [for] loop of lines 99-106; [None] is [return NULL]. *)
Fixpoint lb_policy_loop (fields : list grpc_json)
    (lb_policy_name : option string) : option string :=
  match fields with
  | [] => lb_policy_name
  | field :: next =>
    match key field with
    | None => None
    | Some k =>
      if streq k "loadBalancingPolicy" then
        match lb_policy_name with
        | Some _ => None
        | None =>
          if decide (type field = GRPC_JSON_STRING)
          then lb_policy_loop next (value field)
          else None
        end
      else lb_policy_loop next lb_policy_name
    end
  end.

Definition grpc_service_config_get_lb_policy_name
    (service_config : grpc_service_config) : option string :=
  let json := json_tree service_config in
  if decide (type json = GRPC_JSON_OBJECT) then
    match key json with
    | Some _ => None
    | None => lb_policy_loop (child json) None
    end
  else None.

(** ** count_names_in_method_config_json *)

Fixpoint count_names_loop (fields : list grpc_json) (num_names : nat) : nat :=
  match fields with
  | [] => num_names
  | field :: next =>
    match key field with
    | Some k =>
      if streq k "name" then count_names_loop next (S num_names)
      else count_names_loop next num_names
    | None => count_names_loop next num_names
    end
  end.

Definition count_names_in_method_config_json (json : grpc_json) : nat :=
  count_names_loop (child json) 0.

(** ** parse_json_method_name *)

(** [gpr_asprintf(&path, "/%s/%s", a, b)] *)
Definition gpr_asprintf_path (a b : string) : string :=
  "/" +:+ a +:+ "/" +:+ b.

(** The loop of lines 125-137 over the locals [service_name] and
    [method_name]; [None] is [return NULL]. *)
Fixpoint name_loop (children : list grpc_json)
    (service_name method_name : option string)
    : option (option string * option string) :=
  match children with
  | [] => Some (service_name, method_name)
  | c :: next =>
    match key c with
    | None => None
    | Some k =>
      if decide (type c = GRPC_JSON_STRING) then
        if streq k "service" then
          match service_name, value c with
          | Some _, _ => None
          | None, None => None
          | None, Some v => name_loop next (Some v) method_name
          end
        else if streq k "method" then
          match method_name, value c with
          | Some _, _ => None
          | None, None => None
          | None, Some v => name_loop next service_name (Some v)
          end
        else name_loop next service_name method_name
      else None
    end
  end.

Definition parse_json_method_name (json : grpc_json) : option string :=
  if decide (type json = GRPC_JSON_OBJECT) then
    match name_loop (child json) None None with
    | None => None
    | Some (None, _) => None
    | Some (Some service_name, method_name) =>
      Some (gpr_asprintf_path service_name (default "*" method_name))
    end
  else None.

(** ** grpc_method_config_table_get *)

Inductive fault :=
  | NullPointerArithmetic   (* strrchr gave NULL and 1 was added to it *)
  | NullString              (* a NULL char* read as a string *)
  | NullBuffer              (* a store through a NULL entries pointer *)
  | OutOfBounds             (* a store past the end of entries *)
  | UninitializedEntry      (* a read of a slot never written *)
  | DanglingValue           (* copy or destroy of a value no longer live *)
  | DanglingKey             (* unref of a key holding no reference *)
  | AssertionFailed.        (* GPR_ASSERT *)

Inductive guarded (A : Type) :=
  | Defined_ (a : A)
  | Undefined (f : fault).
Arguments Defined_ {A} a.
Arguments Undefined {A} f.

(** [strrchr(s, c)] as the offset of the last [c] in [s]; [None] is NULL. *)
Fixpoint strrchr (s : string) (c : ascii) : option nat :=
  match s with
  | EmptyString => None
  | String a rest =>
    match strrchr rest c with
    | Some i => Some (S i)
    | None => if Ascii.eqb a c then Some 0 else None
    end
  end.

Section Lookup.
(** What the table stores for a path: the [void*] of the value. *)
Context {A : Type}.

(** Modelled from the spec: the external immutable mapping keyed by
    interned strings ([grpc_mdstr_hash_table], mdstr_hash_table.h) with
    its point lookup; absent is NULL. *)
Definition grpc_mdstr_hash_table_get (table : gmap string A)
    (path : string) : option A :=
  table !! path.

Definition grpc_method_config_table_get (table : gmap string A)
    (path : string) : guarded (option A) :=
  match grpc_mdstr_hash_table_get table path with
  | Some v => Defined_ (Some v)
  | None =>
    let path_str := path in
    match strrchr path_str "/" with
    | None => Undefined NullPointerArithmetic
    | Some i =>
      let len := S i in                       (* sep - path_str *)
      let buf := substring 0 len path_str +:+ "*" in
      Defined_ (grpc_mdstr_hash_table_get table buf)
    end
  end.
End Lookup.

(** ** The method config table compiler *)

(** One slot of the [entries] array: the interned key and the [void*] of
    the value copy.  The slot's [vtable] field always holds the caller's
    vtable and is left out. *)
Record grpc_mdstr_hash_table_entry := Entry {
  entry_key : string;
  entry_value : nat
}.

(** The [entries] pointer: NULL, or an array whose slots are written or not. *)
Abbreviation entries_ptr := (option (list (option grpc_mdstr_hash_table_entry))).

Section Compiler.
(** The caller's payload type, its factory ([None] is a NULL result) and
    the [copy_value] of its vtable.  [destroy_value] only ends the life
    of a value and needs no payload function. *)
Context {V : Type}.
Variable create_value : grpc_json → option V.
Variable copy_value : V → V.
(** [gpr_malloc] is outside the file: whether a request of zero bytes
    gives NULL is left open. *)
Variable malloc_zero_is_null : bool.
(** [grpc_mdstr_from_string] is outside the file too.  It reads its
    argument as a string; what it makes of NULL is left open: [None] for
    no defined result, [Some k] for the key [k]. *)
Variable mdstr_from_null : option string.

(** The resources the compiler handles: the values alive (by address),
    the key references outstanding, and the [entries] arrays allocated
    and not freed.  The [paths] vector of [parse_json_method_config] is
    destroyed on every way out of that function (line 180) and is not
    tracked.  What a finished table keeps for itself stays alive. *)
Record world := World {
  next_value : nat;
  live_values : gmap nat V;
  live_keys : gmultiset string;
  live_buffers : nat
}.

Definition empty_world : world := World 0 ∅ ∅ 0.

Inductive outcome (R : Type) :=
  | Returns (r : R) (w : world)
  | Aborts (f : fault) (w : world).
Arguments Returns {R} r w.
Arguments Aborts {R} f w.

Definition run (R : Type) : Type := world → outcome R.

#[local] Instance run_ret : MRet run := λ R r w, Returns r w.
#[local] Instance run_bind : MBind run := λ R S k m w,
  match m w with
  | Returns r w' => k r w'
  | Aborts f w' => Aborts f w'
  end.

Definition abort {R} (f : fault) : run R := λ w, Aborts f w.

Definition new_value (v : V) : run nat := λ w,
  Returns (next_value w)
    (World (S (next_value w)) (<[next_value w := v]> (live_values w))
           (live_keys w) (live_buffers w)).

(** [create_value(json)] *)
Definition call_create_value (json : grpc_json) : run (option nat) :=
  match create_value json with
  | None => mret None
  | Some v => p ← new_value v; mret (Some p)
  end.

(** [vtable->copy_value(p)] *)
Definition vtable_copy_value (p : nat) : run nat := λ w,
  match live_values w !! p with
  | Some v => new_value (copy_value v) w
  | None => Aborts DanglingValue w
  end.

(** [vtable->destroy_value(p)] *)
Definition vtable_destroy_value (p : nat) : run unit := λ w,
  match live_values w !! p with
  | Some _ =>
    Returns () (World (next_value w) (delete p (live_values w))
                      (live_keys w) (live_buffers w))
  | None => Aborts DanglingValue w
  end.

(** Modelled from the spec: the external string interning primitive
    [grpc_mdstr_from_string], which returns the key of a string with one
    reference taken on it. *)
Definition grpc_mdstr_from_string (s : option string) : run string := λ w,
  match from_option Some mdstr_from_null s with
  | None => Aborts NullString w
  | Some k =>
    Returns k (World (next_value w) (live_values w)
                     ({[+ k +]} ⊎ live_keys w) (live_buffers w))
  end.

(** Modelled from the spec: [GRPC_MDSTR_REF], one more reference. *)
Definition GRPC_MDSTR_REF (k : string) : run unit := λ w,
  Returns () (World (next_value w) (live_values w)
                    ({[+ k +]} ⊎ live_keys w) (live_buffers w)).

(** Modelled from the spec: [GRPC_MDSTR_UNREF], one reference less. *)
Definition GRPC_MDSTR_UNREF (k : string) : run unit := λ w,
  if decide (multiplicity k (live_keys w) = 0) then Aborts DanglingKey w
  else
    Returns () (World (next_value w) (live_values w)
                      (live_keys w ∖ {[+ k +]}) (live_buffers w)).

(** [gpr_malloc(n * sizeof(grpc_mdstr_hash_table_entry))] *)
Definition gpr_malloc (n : nat) : run entries_ptr := λ w,
  if Nat.eqb n 0 && malloc_zero_is_null then Returns None w
  else
    Returns (Some (replicate n None))
      (World (next_value w) (live_values w) (live_keys w)
             (S (live_buffers w))).

(** [gpr_free(entries)] of a non-NULL array *)
Definition gpr_free : run unit := λ w,
  Returns () (World (next_value w) (live_values w) (live_keys w)
                    (pred (live_buffers w))).

(** *** parse_json_method_config *)

(** Lines 163-166: every element of a name array adds its path, NULL
    included, to [paths]. *)
Fixpoint names_loop (names : list grpc_json) (paths : list (option string))
    : list (option string) :=
  match names with
  | [] => paths
  | name :: next =>
    let path := parse_json_method_name name in
    names_loop next (paths ++ [path])
  end.

(** Lines 159-168; [None] is [goto done]. *)
Fixpoint paths_loop (children : list grpc_json)
    (paths : list (option string)) : option (list (option string)) :=
  match children with
  | [] => Some paths
  | c :: next =>
    match key c with
    | None => paths_loop next paths
    | Some k =>
      if streq k "name" then
        if decide (type c = GRPC_JSON_ARRAY)
        then paths_loop next (names_loop (child c) paths)
        else None
      else paths_loop next paths
    end
  end.

(** The lvalue [entries[idx]] of a store. *)
Definition check_slot (entries : entries_ptr) (idx : nat) : run unit :=
  match entries with
  | None => abort NullBuffer
  | Some slots => if decide (idx < length slots) then mret () else abort OutOfBounds
  end.

(** Lines 171-176. *)
Fixpoint add_entries_loop (paths : list (option string))
    (method_config : nat) (entries : entries_ptr) (idx : nat)
    : run (entries_ptr * nat) :=
  match paths with
  | [] => mret (entries, idx)
  | path :: rest =>
    k ← grpc_mdstr_from_string path;
    _ ← check_slot entries idx;
    v ← vtable_copy_value method_config;
    add_entries_loop rest method_config
      (<[idx := Some (Entry k v)]> <$> entries) (S idx)
  end.

(** Returns [success] with the array and [*idx] as the call leaves them. *)
Definition parse_json_method_config (json : grpc_json)
    (entries : entries_ptr) (idx : nat) : run (bool * entries_ptr * nat) :=
  created ← call_create_value json;
  match created with
  | None => mret (false, entries, idx)
  | Some method_config =>
    match paths_loop (child json) [] with
    | None =>
      _ ← vtable_destroy_value method_config;
      mret (false, entries, idx)
    | Some paths =>
      if Nat.eqb (length paths) 0 then
        _ ← vtable_destroy_value method_config;
        mret (false, entries, idx)
      else
        '(entries', idx') ← add_entries_loop paths method_config entries idx;
        _ ← vtable_destroy_value method_config;
        mret (true, entries', idx')
    end
  end.

(** *** grpc_service_config_create_method_config_table *)

(** Lines 199-202. *)
Fixpoint count_loop (methods : list grpc_json) (num_entries : nat) : nat :=
  match methods with
  | [] => num_entries
  | method :: next =>
    count_loop next (num_entries + count_names_in_method_config_json method)
  end.

(** Lines 206-212; [false] is [return NULL]. *)
Fixpoint methods_loop (methods : list grpc_json) (entries : entries_ptr)
    (idx : nat) : run (bool * entries_ptr * nat) :=
  match methods with
  | [] => mret (true, entries, idx)
  | method :: next =>
    '(success, entries', idx') ← parse_json_method_config method entries idx;
    if success : bool then methods_loop next entries' idx'
    else mret (false, entries', idx')
  end.

(** Lines 193-215 over the locals [num_entries] and [entries]; [None] is
    [return NULL]. *)
Fixpoint fields_loop (fields : list grpc_json) (num_entries : nat)
    (entries : entries_ptr) : run (option (nat * entries_ptr)) :=
  match fields with
  | [] => mret (Some (num_entries, entries))
  | field :: next =>
    match key field with
    | None => mret None
    | Some k =>
      if streq k "methodConfig" then
        match entries with
        | Some _ => mret None
        | None =>
          if decide (type field = GRPC_JSON_ARRAY) then
            let num_entries' := count_loop (child field) num_entries in
            entries' ← gpr_malloc num_entries';
            '(success, entries'', idx) ← methods_loop (child field) entries' 0;
            if success : bool then
              if decide (idx = num_entries')
              then fields_loop next num_entries' entries''
              else abort AssertionFailed
            else mret None
          else mret None
        end
      else fields_loop next num_entries entries
    end
  end.

(** Modelled from the spec: the bulk constructor of the external mapping
    ([grpc_mdstr_hash_table_create]).  It reads the first [num_entries] slots of
    the array and keeps, for each, its own key reference and its own copy
    of the value.  Of two slots with one key the earlier is the one
    lookups see. *)
Fixpoint table_create_loop (slots : list (option grpc_mdstr_hash_table_entry))
    (n : nat) (table : gmap string nat) : run (gmap string nat) :=
  match n with
  | 0 => mret table
  | S n' =>
    match slots with
    | Some e :: rest =>
      _ ← GRPC_MDSTR_REF (entry_key e);
      v ← vtable_copy_value (entry_value e);
      table_create_loop rest n'
        (match table !! entry_key e with
         | Some _ => table
         | None => <[entry_key e := v]> table
         end)
    | _ => abort UninitializedEntry
    end
  end.

Definition grpc_mdstr_hash_table_create (num_entries : nat)
    (slots : list (option grpc_mdstr_hash_table_entry))
    : run (gmap string nat) :=
  table_create_loop slots num_entries ∅.

(** Lines 221-224. *)
Fixpoint clean_up_loop (slots : list (option grpc_mdstr_hash_table_entry))
    (n : nat) : run unit :=
  match n with
  | 0 => mret ()
  | S n' =>
    match slots with
    | Some e :: rest =>
      _ ← GRPC_MDSTR_UNREF (entry_key e);
      _ ← vtable_destroy_value (entry_value e);
      clean_up_loop rest n'
    | _ => abort UninitializedEntry
    end
  end.

(** The result is the table pointer: [None] is NULL. *)
Definition grpc_service_config_create_method_config_table
    (service_config : grpc_service_config) : run (option (gmap string nat)) :=
  let json := json_tree service_config in
  if decide (type json = GRPC_JSON_OBJECT) then
    match key json with
    | Some _ => mret None
    | None =>
      scanned ← fields_loop (child json) 0 None;
      match scanned with
      | None => mret None
      | Some (num_entries, entries) =>
        match entries with
        | Some slots =>
          method_config_table ← grpc_mdstr_hash_table_create num_entries slots;
          _ ← clean_up_loop slots num_entries;
          _ ← gpr_free;
          mret (Some method_config_table)
        | None => mret None
        end
      end
    end
  else mret None.
End Compiler.

Arguments Returns {V R} r w.
Arguments Aborts {V R} f w.
Arguments empty_world {V}.

(** ** Building documents *)

Definition string_node (k : option string) (v : string) : grpc_json :=
  Json k GRPC_JSON_STRING (Some v) [].
Definition object_node (k : option string) (fields : list grpc_json)
  : grpc_json := Json k GRPC_JSON_OBJECT None fields.
Definition array_node (k : option string) (elements : list grpc_json)
  : grpc_json := Json k GRPC_JSON_ARRAY None elements.
Definition document (fields : list grpc_json) : grpc_service_config :=
  ServiceConfig EmptyString (object_node None fields).

(** The fields of an object that carry the key [k], in order. *)
Definition fields_named (k : string) (fields : list grpc_json)
  : list grpc_json := filter (λ f, key f = Some k) fields.

(** A string node as the parser leaves it: its text is there. *)
Definition string_has_text (f : grpc_json) : Prop :=
  type f = GRPC_JSON_STRING → is_Some (value f).

(** [s] has no ['/']. *)
Definition slash_free (s : string) : Prop :=
  ∀ i, String.get i s ≠ Some "/"%char.

(** How the local for one key ends the scan: it keeps what it had when no
    field has the key, and takes the text of the one field that has it. *)
Inductive slot_filled : option string → list (option string) → option string → Prop :=
  | slot_empty : slot_filled None [] None
  | slot_kept v : slot_filled (Some v) [] (Some v)
  | slot_taken v : slot_filled None [Some v] (Some v).

(** [fields'] is [fields] with keyless fields put in. *)
Inductive with_keyless : list grpc_json → list grpc_json → Prop :=
  | with_keyless_nil : with_keyless [] []
  | with_keyless_same f fields fields' :
      with_keyless fields fields' → with_keyless (f :: fields) (f :: fields')
  | with_keyless_more f fields fields' :
      key f = None →
      with_keyless fields fields' → with_keyless fields (f :: fields').

(** A factory that accepts every entry; the payload is the number of the
    entry's fields. *)
Definition entry_size (json : grpc_json) : option nat :=
  Some (length (child json)).

(** A factory that looks at keyed fields only: the payload is the number
    of "name" fields. *)
Definition entry_names (json : grpc_json) : option nat :=
  Some (count_names_in_method_config_json json).

(** A factory that refuses an entry with a keyless field. *)
Definition keyed_fields_only (json : grpc_json) : option nat :=
  if forallb (λ f, bool_decide (is_Some (key f))) (child json)
  then Some 0 else None.

(** The entry [{"name": [{"service": "svc"}]}], and the same with a keyless
    string put after the name field. *)
Definition svc_entry : grpc_json :=
  object_node None
    [array_node (Some "name")
       [object_node None [string_node (Some "service") "svc"]]].
Definition svc_entry_keyless : grpc_json :=
  object_node None
    [array_node (Some "name")
       [object_node None [string_node (Some "service") "svc"]];
     string_node None "x"].

(** A valid entry followed by an entry without a name. *)
Definition doc_valid_then_unnamed : grpc_service_config :=
  document [array_node (Some "methodConfig")
              [svc_entry; object_node None []]].

(** One entry whose name array holds two name objects. *)
Definition two_names_entry : grpc_json :=
  object_node None
    [array_node (Some "name")
       [object_node None [string_node (Some "service") "svc";
                          string_node (Some "method") "Get"];
        object_node None [string_node (Some "service") "svc";
                          string_node (Some "method") "Put"]]].

Definition doc_two_names : grpc_service_config :=
  document [array_node (Some "methodConfig") [two_names_entry]].

(** One entry whose only name object has no "service". *)
Definition no_service_entry : grpc_json :=
  object_node None
    [array_node (Some "name")
       [object_node None [string_node (Some "method") "Get"]]].

Definition doc_no_service : grpc_service_config :=
  document [array_node (Some "methodConfig") [no_service_entry]].

(** ** Notions for the statements about the compiler *)

(** No value lives at or above the next address to be handed out. *)
Definition fresh {V} (w : @world V) : Prop :=
  ∀ p : nat, (next_value w ≤ p)%nat → live_values w !! p = None.

(** The [paths] vector an entry ends up with; empty when the walk of its
    fields stops at a "name" field that is no array. *)
Definition entry_paths (e : grpc_json) : list (option string) :=
  default [] (paths_loop (child e) []).

(** The entry gets through [parse_json_method_config]'s own checks: the
    factory takes it and it has at least one path. *)
Definition entry_passes {V} (create_value : grpc_json → option V)
    (e : grpc_json) : Prop :=
  is_Some (create_value e) ∧ entry_paths e ≠ [].

(** What a "methodConfig" field has gone through when the scan gets past
    it: it is an array, each entry passes, the paths of its entries are as
    many as the pre-pass counts, and, where [grpc_mdstr_from_string] has no
    result on NULL, no path is NULL. *)
Definition method_config_checked {V} (create_value : grpc_json → option V)
    (mdstr_from_null : option string) (F : grpc_json) : Prop :=
  type F = GRPC_JSON_ARRAY ∧
  Forall (entry_passes create_value) (child F) ∧
  length (concat (entry_paths <$> child F)) = count_loop (child F) 0 ∧
  (mdstr_from_null = None →
   Forall (λ e, Forall is_Some (entry_paths e)) (child F)).

(** The entries [es] stand staged in [w'] for the pairs [kvs] of path and
    payload, [w] being the state before: each entry has its path as key and
    a live value of its own with the payload; these values were made since
    [w]; no other address changed; each path got one key reference. *)
Definition staged {V} (kvs : list (string * V))
    (es : list grpc_mdstr_hash_table_entry) (w w' : @world V) : Prop :=
  Forall2 (λ e kv, entry_key e = kv.1 ∧
                   live_values w' !! entry_value e = Some kv.2) es kvs ∧
  NoDup (entry_value <$> es) ∧
  Forall (λ e, (next_value w ≤ entry_value e < next_value w')%nat) es ∧
  (∀ h : nat, h ∉ entry_value <$> es →
              live_values w' !! h = live_values w !! h) ∧
  (next_value w ≤ next_value w')%nat ∧
  live_keys w' = list_to_set_disj (kvs.*1) ⊎ live_keys w ∧
  live_buffers w' = live_buffers w.

(** The pairs an entry stages: each of its paths with a copy of its value. *)
Definition entry_pairs {V} (copy_value : V → V) (vp : V * list string)
  : list (string * V) := (λ p, (p, copy_value vp.1)) <$> vp.2.

(** The factory gives the value [vp.1] for the entry [e], and the walk of
    the entry's fields gives the paths [vp.2], at least one and none NULL. *)
Definition entry_yields {V} (create_value : grpc_json → option V)
    (e : grpc_json) (vp : V * list string) : Prop :=
  create_value e = Some vp.1 ∧
  paths_loop (child e) [] = Some (Some <$> vp.2) ∧
  vp.2 ≠ [].


(** An entry with two "name" fields of one name object each and a field
    for the factory between them. *)
Definition get_and_other_entry : grpc_json :=
  object_node None
    [array_node (Some "name")
       [object_node None [string_node (Some "service") "svc";
                          string_node (Some "method") "Get"]];
     string_node (Some "timeout") "1s";
     array_node (Some "name")
       [object_node None [string_node (Some "service") "other"]]].


(** An entry with two "name" fields, the second an empty array. *)
Definition empty_name_entry : grpc_json :=
  object_node None
    [array_node (Some "name")
       [object_node None [string_node (Some "service") "svc"]];
     array_node (Some "name") []].

(** * Properties *)

Lemma streq_spec a b : reflect (a = b) (streq a b).
Proof. apply String.eqb_spec. Qed.

Lemma streq_refl a : streq a a = true.
Proof. apply String.eqb_refl. Qed.

(** ** The load balancing policy *)

Lemma lb_policy_loop_keyless fields : ∀ acc,
  Exists (λ f, key f = None) fields → lb_policy_loop fields acc = None.
Proof.
  induction fields as [|f fields IH]; intros acc Hex.
  - inversion Hex.
  - simpl. destruct (key f) as [k|] eqn:Hk; [|done].
    assert (Hrest : Exists (λ f, key f = None) fields).
    { inversion Hex; subst; [congruence | done]. }
    destruct (streq k "loadBalancingPolicy").
    + destruct acc; [done|]. case_decide; [by apply IH | done].
    + by apply IH.
Qed.

(** C8: when some top-level field has no key the call returns NULL,
    whatever stands before that field, a well-formed "loadBalancingPolicy"
    string included. *)
Theorem lb_policy_keyless_field_rejects (sc : grpc_service_config) :
  Exists (λ f, key f = None) (child (json_tree sc)) →
  grpc_service_config_get_lb_policy_name sc = None.
Proof.
  intros Hex. unfold grpc_service_config_get_lb_policy_name.
  case_decide; [|done]. destruct (key (json_tree sc)); [done|].
  by apply lb_policy_loop_keyless.
Qed.

Lemma lb_policy_keyless_field_rejects_witness :
  lb_policy_loop [string_node (Some "loadBalancingPolicy") "round_robin"] None
    = Some "round_robin" ∧
  grpc_service_config_get_lb_policy_name
    (document [string_node (Some "loadBalancingPolicy") "round_robin";
               string_node None "x"]) = None.
Proof.
  split; [reflexivity|].
  apply lb_policy_keyless_field_rejects. simpl.
  apply Exists_cons_tl, Exists_cons_hd. reflexivity.
Defined.

Lemma lb_policy_loop_captured fields : ∀ v,
  Exists (λ f, key f = Some "loadBalancingPolicy") fields →
  lb_policy_loop fields (Some v) = None.
Proof.
  induction fields as [|f fields IH]; intros v Hex.
  - inversion Hex.
  - simpl. destruct (key f) as [k|] eqn:Hk; [|done].
    destruct (streq_spec k "loadBalancingPolicy"); [done|].
    apply IH. inversion Hex; subst; [congruence | done].
Qed.

Lemma lb_policy_loop_absent fields :
  Forall (λ f, is_Some (key f)) fields →
  fields_named "loadBalancingPolicy" fields = [] →
  lb_policy_loop fields None = None.
Proof.
  induction 1 as [|f fields [k Hk] _ IH]; [done|].
  unfold fields_named. rewrite filter_cons. simpl. rewrite Hk.
  destruct (streq_spec k "loadBalancingPolicy") as [->|Hne].
  - rewrite decide_True by done. discriminate.
  - rewrite decide_False by congruence. apply IH.
Qed.

Lemma lb_policy_loop_duplicate l1 : ∀ f1 l2 f2 l3 acc,
  key f1 = Some "loadBalancingPolicy" →
  key f2 = Some "loadBalancingPolicy" →
  string_has_text f1 →
  lb_policy_loop (l1 ++ f1 :: l2 ++ f2 :: l3) acc = None.
Proof.
  induction l1 as [|f l1 IH]; intros f1 l2 f2 l3 acc H1 H2 Htext.
  - simpl. rewrite H1, streq_refl. destruct acc; [done|].
    case_decide as Hty; [|done]. destruct (Htext Hty) as [v ->].
    apply lb_policy_loop_captured, Exists_app. right. by left.
  - simpl. destruct (key f) as [k|]; [|done].
    destruct (streq k "loadBalancingPolicy").
    + destruct acc; [done|]. case_decide; [by apply IH | done].
    + by apply IH.
Qed.

(** C7 (amended): two sibling "loadBalancingPolicy" fields make the call
    return NULL; with no such field the call returns NULL as well, so the
    absent case gives the very result of a rejection. *)
Theorem lb_policy_duplicate_and_absent_give_null (sc : grpc_service_config) :
  type (json_tree sc) = GRPC_JSON_OBJECT →
  key (json_tree sc) = None →
  Forall (λ f, is_Some (key f)) (child (json_tree sc)) →
  Forall string_has_text (child (json_tree sc)) →
  ((∃ l1 f1 l2 f2 l3,
       child (json_tree sc) = l1 ++ f1 :: l2 ++ f2 :: l3 ∧
       key f1 = Some "loadBalancingPolicy" ∧
       key f2 = Some "loadBalancingPolicy") →
     grpc_service_config_get_lb_policy_name sc = None) ∧
  (fields_named "loadBalancingPolicy" (child (json_tree sc)) = [] →
     grpc_service_config_get_lb_policy_name sc = None).
Proof.
  intros Hty Hkey Hkeyed Htext.
  unfold grpc_service_config_get_lb_policy_name.
  rewrite decide_True by done. rewrite Hkey. split.
  - intros (l1 & f1 & l2 & f2 & l3 & Heq & H1 & H2). rewrite Heq.
    apply lb_policy_loop_duplicate; [done..|].
    rewrite Heq in Htext. apply Forall_app in Htext as [_ Htext].
    by inversion Htext.
  - by apply lb_policy_loop_absent.
Qed.

Lemma lb_policy_duplicate_and_absent_give_null_witness :
  grpc_service_config_get_lb_policy_name
    (document [string_node (Some "loadBalancingPolicy") "round_robin";
               string_node (Some "loadBalancingPolicy") "pick_first"]) = None ∧
  grpc_service_config_get_lb_policy_name
    (document [string_node (Some "other") "x"]) = None.
Proof.
  split.
  - refine (proj1 (lb_policy_duplicate_and_absent_give_null
                     (document [string_node (Some "loadBalancingPolicy") "round_robin";
                                string_node (Some "loadBalancingPolicy") "pick_first"])
                     eq_refl eq_refl _ _) _).
    + repeat constructor; by eexists.
    + repeat constructor; by eexists.
    + by exists [], (string_node (Some "loadBalancingPolicy") "round_robin"), [],
        (string_node (Some "loadBalancingPolicy") "pick_first"), [].
  - refine (proj2 (lb_policy_duplicate_and_absent_give_null
                     (document [string_node (Some "other") "x"])
                     eq_refl eq_refl _ _) _).
    + repeat constructor; by eexists.
    + repeat constructor; by eexists.
    + reflexivity.
Defined.

(** C7, as stated, fails: a document without "loadBalancingPolicy" gets
    the same NULL as one that repeats the field. *)
Lemma lb_policy_absent_same_as_rejected :
  grpc_service_config_get_lb_policy_name
    (document [string_node (Some "other") "x"]) = None ∧
  grpc_service_config_get_lb_policy_name
    (document [string_node (Some "other") "x"]) =
  grpc_service_config_get_lb_policy_name
    (document [string_node (Some "loadBalancingPolicy") "round_robin";
               string_node (Some "loadBalancingPolicy") "pick_first"]).
Proof. split; reflexivity. Qed.

(** ** Name objects *)

Ltac no_more_fields :=
  match goal with H : [] = _ <$> _ |- _ => rewrite <- H end.

Lemma name_loop_scan children : ∀ sn mn rs rm,
  Forall (λ f, is_Some (key f) ∧ type f = GRPC_JSON_STRING) children →
  slot_filled sn (value <$> fields_named "service" children) rs →
  slot_filled mn (value <$> fields_named "method" children) rm →
  name_loop children sn mn = Some (rs, rm).
Proof.
  induction children as [|c children IH]; intros sn mn rs rm Hall Hs Hm.
  - simpl in *. by inversion Hs; inversion Hm.
  - apply Forall_cons in Hall as [[[k Hk] Hty] Hall].
    unfold fields_named in Hs, Hm. rewrite !filter_cons in Hs, Hm.
    simpl. rewrite Hk in *. rewrite decide_True by done.
    destruct (streq_spec k "service") as [->|Hns].
    { rewrite decide_True in Hs by done.
      rewrite decide_False in Hm by discriminate.
      rewrite fmap_cons in Hs. inversion Hs as [| |v]; subst.
      apply IH; [done| |done].
      unfold fields_named. no_more_fields. constructor. }
    rewrite decide_False in Hs by congruence.
    destruct (streq_spec k "method") as [->|Hnm].
    { rewrite decide_True in Hm by done.
      rewrite fmap_cons in Hm. inversion Hm as [| |v]; subst.
      apply IH; [done|done|].
      unfold fields_named. no_more_fields. constructor. }
    rewrite decide_False in Hm by congruence.
    by apply IH.
Qed.

(** C5: a name object whose fields are keyed strings, with one "service"
    of text [svc] and at most one "method", yields "/svc/*" without a
    method and "/svc/m" with the method [m]. *)
Theorem name_object_path (json : grpc_json) (svc : string) :
  type json = GRPC_JSON_OBJECT →
  Forall (λ f, is_Some (key f) ∧ type f = GRPC_JSON_STRING) (child json) →
  value <$> fields_named "service" (child json) = [Some svc] →
  (value <$> fields_named "method" (child json) = [] →
     parse_json_method_name json = Some ("/" +:+ svc +:+ "/*")) ∧
  (∀ m, value <$> fields_named "method" (child json) = [Some m] →
     parse_json_method_name json = Some ("/" +:+ svc +:+ "/" +:+ m)).
Proof.
  intros Hty Hall Hsvc. unfold parse_json_method_name.
  rewrite decide_True by done. split.
  - intros Hm.
    rewrite (name_loop_scan _ None None (Some svc) None); [done|done|..].
    + rewrite Hsvc. constructor.
    + rewrite Hm. constructor.
  - intros m Hm.
    rewrite (name_loop_scan _ None None (Some svc) (Some m)); [done|done|..].
    + rewrite Hsvc. constructor.
    + rewrite Hm. constructor.
Qed.

Lemma name_object_path_witness :
  parse_json_method_name
    (object_node None [string_node (Some "service") "svc"]) = Some "/svc/*" ∧
  parse_json_method_name
    (object_node None [string_node (Some "service") "svc";
                       string_node (Some "method") "Method"])
    = Some "/svc/Method".
Proof.
  split.
  - refine (proj1 (name_object_path
             (object_node None [string_node (Some "service") "svc"]) "svc"
             eq_refl _ eq_refl) eq_refl).
    repeat constructor; by eexists.
  - refine (proj2 (name_object_path
             (object_node None [string_node (Some "service") "svc";
                                string_node (Some "method") "Method"]) "svc"
             eq_refl _ eq_refl) "Method" eq_refl).
    repeat constructor; by eexists.
Defined.

(** ** Path lookup *)

Lemma append_cons a s t : String a s +:+ t = String a (s +:+ t).
Proof. reflexivity. Qed.

Lemma append_slash_star s : (s +:+ "/") +:+ "*" = s +:+ "/*".
Proof.
  induction s as [|a s IH]; [done|]. rewrite !append_cons. by f_equal.
Qed.

Lemma strrchr_slash_free s : slash_free s → strrchr s "/" = None.
Proof.
  induction s as [|a s IH]; intros Hfree; [done|]. simpl.
  rewrite IH by (intros i; apply (Hfree (S i))).
  destruct (Ascii.eqb_spec a "/") as [->|]; [|done].
  by destruct (Hfree 0).
Qed.

Lemma strrchr_none_slash_free s : strrchr s "/" = None → slash_free s.
Proof.
  induction s as [|a s IH]; intros Hnone i; [by destruct i|].
  simpl in Hnone. destruct (strrchr s "/") eqn:Hs; [done|].
  destruct i as [|i]; simpl.
  - intros [= ->]. done.
  - by apply IH.
Qed.

Lemma strrchr_found s : ∀ i,
  String.get i s = Some "/"%char → is_Some (strrchr s "/").
Proof.
  induction s as [|a s IH]; intros i Hget; [by destruct i|]. simpl.
  destruct i as [|i]; simpl in Hget.
  - injection Hget as ->. destruct (strrchr s "/"); by eexists.
  - destruct (IH i Hget) as [j ->]. by eexists.
Qed.

(** The last ['/'] splits the string. *)
Lemma strrchr_split s : ∀ i,
  strrchr s "/" = Some i →
  ∃ pre suf, s = pre +:+ "/" +:+ suf ∧ String.length pre = i ∧
             strrchr suf "/" = None.
Proof.
  induction s as [|a s IH]; intros i Hi; [done|]. simpl in Hi.
  destruct (strrchr s "/") as [j|] eqn:Hs.
  - injection Hi as <-. destruct (IH j eq_refl) as (pre & suf & -> & <- & Hsuf).
    by exists (String a pre), suf.
  - destruct (Ascii.eqb_spec a "/") as [->|]; [|done]. injection Hi as <-.
    by exists EmptyString, s.
Qed.

Lemma substring_through_slash pre suf :
  substring 0 (S (String.length pre)) (pre +:+ "/" +:+ suf) = pre +:+ "/".
Proof.
  induction pre as [|a pre IH].
  - by destruct suf.
  - rewrite !append_cons. simpl. f_equal. apply IH.
Qed.

(** C6: for a path with a ['/'], written as [pre], its last ['/'] and a
    rest free of ['/'], the lookup gives the value under the path when the
    path is a key, else whatever the table holds under [pre/*], absent
    included; nothing else is consulted. *)
Theorem lookup_exact_then_wildcard {A} (table : gmap string A) (path : string) :
  (∃ i, String.get i path = Some "/"%char) →
  ∃ pre suf,
    path = pre +:+ "/" +:+ suf ∧ slash_free suf ∧
    grpc_method_config_table_get table path =
      Defined_ (match table !! path with
                | Some v => Some v
                | None => table !! (pre +:+ "/*")
                end).
Proof.
  intros [i Hi]. destruct (strrchr_found _ _ Hi) as [j Hj].
  destruct (strrchr_split _ _ Hj) as (pre & suf & Hpath & Hlen & Hsuf).
  exists pre, suf. split; [done|]. split; [by apply strrchr_none_slash_free|].
  unfold grpc_method_config_table_get, grpc_mdstr_hash_table_get.
  destruct (table !! path); [done|]. rewrite Hj. subst j. f_equal.
  rewrite Hpath, substring_through_slash. f_equal.
  apply append_slash_star.
Qed.

Lemma lookup_exact_then_wildcard_witness :
  ∃ pre suf,
    "/svc/Other" = pre +:+ "/" +:+ suf ∧ slash_free suf ∧
    grpc_method_config_table_get
      (<["/*" := 1]> (<["/svc/*" := 7]> (∅ : gmap string nat))) "/svc/Other" =
      Defined_ (match (<["/*" := 1]> (<["/svc/*" := 7]> (∅ : gmap string nat)))
                        !! "/svc/Other" with
                | Some v => Some v
                | None => (<["/*" := 1]> (<["/svc/*" := 7]> (∅ : gmap string nat)))
                            !! (pre +:+ "/*")
                end).
Proof.
  apply (lookup_exact_then_wildcard
           (<["/*" := 1]> (<["/svc/*" := 7]> (∅ : gmap string nat)))
           "/svc/Other").
  by exists 0.
Defined.

(** C9: a path without ['/'] that is no key of the table drives the
    lookup into arithmetic on the NULL that [strrchr] returns. *)
Theorem lookup_without_slash_undefined {A} (table : gmap string A)
    (path : string) :
  table !! path = None →
  slash_free path →
  grpc_method_config_table_get table path = Undefined NullPointerArithmetic.
Proof.
  intros Hmiss Hfree.
  unfold grpc_method_config_table_get, grpc_mdstr_hash_table_get.
  by rewrite Hmiss, strrchr_slash_free.
Qed.

Lemma slash_free_svc : slash_free "svc".
Proof. by intros [|[|[|[|i]]]]. Defined.

Lemma lookup_without_slash_undefined_witness :
  grpc_method_config_table_get
    (<["/svc/*" := 7]> (∅ : gmap string nat)) "svc"
  = Undefined NullPointerArithmetic.
Proof.
  apply lookup_without_slash_undefined; [reflexivity | apply slash_free_svc].
Defined.

(** ** Compiling the method config table *)

(** The pre-pass counts the fields keyed "name", whatever they hold. *)
Lemma count_names_loop_fields fields : ∀ n,
  count_names_loop fields n = n + length (fields_named "name" fields).
Proof.
  induction fields as [|f fields IH]; intros n; simpl; [lia|].
  unfold fields_named. rewrite filter_cons.
  destruct (key f) as [k|] eqn:Hk.
  - destruct (streq_spec k "name") as [->|Hne].
    + rewrite decide_True by done. rewrite IH. simpl.
      unfold fields_named. lia.
    + rewrite decide_False by congruence. apply IH.
  - rewrite decide_False by congruence. apply IH.
Qed.

Lemma count_names_loop_keyless fields fields' :
  with_keyless fields fields' →
  ∀ n, count_names_loop fields' n = count_names_loop fields n.
Proof.
  induction 1 as [|f fields fields' _ IH|f fields fields' Hkey _ IH];
    intros n; simpl; [done| |by rewrite Hkey].
  destruct (key f) as [k|]; [destruct (streq k "name")|]; apply IH.
Qed.

Lemma paths_loop_keyless fields fields' :
  with_keyless fields fields' →
  ∀ paths, paths_loop fields' paths = paths_loop fields paths.
Proof.
  induction 1 as [|f fields fields' _ IH|f fields fields' Hkey _ IH];
    intros paths; simpl; [done| |by rewrite Hkey].
  destruct (key f) as [k|]; [|apply IH].
  destruct (streq k "name"); [|apply IH]. case_decide; [apply IH | done].
Qed.

(** A methodConfig-free scan leaves the locals and the resources alone. *)
Lemma fields_loop_without_method_config {V} (create_value : grpc_json → option V)
    (copy_value : V → V) (malloc_zero_is_null : bool)
    (mdstr_from_null : option string) fields :
  Forall (λ f, is_Some (key f)) fields →
  fields_named "methodConfig" fields = [] →
  ∀ n entries w,
    fields_loop create_value copy_value malloc_zero_is_null mdstr_from_null
      fields n entries w
    = Returns (Some (n, entries)) w.
Proof.
  induction 1 as [|f fields [k Hk] _ IH]; intros Hnone n entries w; [done|].
  unfold fields_named in Hnone. rewrite filter_cons in Hnone.
  simpl. rewrite Hk in *.
  destruct (streq_spec k "methodConfig") as [->|Hne].
  - by rewrite decide_True in Hnone.
  - rewrite decide_False in Hnone by congruence. by apply IH.
Qed.

(** C2 (amended): for a keyless root object whose fields are all keyed and
    none of them "methodConfig", the call returns NULL, the value it also
    returns on rejection; no table is made and no resource is touched. *)
Theorem absent_method_config_returns_null {V}
    (create_value : grpc_json → option V) (copy_value : V → V)
    (malloc_zero_is_null : bool) (mdstr_from_null : option string)
    (sc : grpc_service_config) (w : world) :
  type (json_tree sc) = GRPC_JSON_OBJECT →
  key (json_tree sc) = None →
  Forall (λ f, is_Some (key f)) (child (json_tree sc)) →
  fields_named "methodConfig" (child (json_tree sc)) = [] →
  grpc_service_config_create_method_config_table
    create_value copy_value malloc_zero_is_null mdstr_from_null sc w
  = Returns None w.
Proof.
  intros Hty Hkey Hkeyed Hnone.
  unfold grpc_service_config_create_method_config_table.
  rewrite decide_True by done. rewrite Hkey.
  unfold mbind, run_bind.
  by rewrite fields_loop_without_method_config.
Qed.

Lemma absent_method_config_returns_null_witness :
  grpc_service_config_create_method_config_table entry_size id true None
    (document [string_node (Some "loadBalancingPolicy") "round_robin"])
    empty_world
  = Returns None empty_world.
Proof.
  apply absent_method_config_returns_null; [reflexivity..| |reflexivity].
  repeat constructor; by eexists.
Defined.

(** C2, as stated, fails: the document [{}], which has no "methodConfig",
    gets NULL and no table, exactly as a document whose root is an array. *)
Lemma absent_method_config_same_as_rejected :
  grpc_service_config_create_method_config_table entry_size id true None
    (document []) empty_world
  = Returns None empty_world ∧
  grpc_service_config_create_method_config_table entry_size id true None
    (document []) empty_world
  = grpc_service_config_create_method_config_table entry_size id true None
      (ServiceConfig EmptyString (array_node None [])) empty_world.
Proof. split; reflexivity. Qed.

Section KeylessEntryFields.
Context {V : Type}.
Variable create_value : grpc_json → option V.
Variable copy_value : V → V.
Variable malloc_zero_is_null : bool.
Variable mdstr_from_null : option string.

(** The entry [e] and the entry [e'] with keyless fields put in, for
    which the factory answers alike. *)
Variables e e' : grpc_json.
Hypothesis same_value : create_value e' = create_value e.
Hypothesis more_fields : with_keyless (child e) (child e').

Lemma count_names_keyless :
  count_names_in_method_config_json e' = count_names_in_method_config_json e.
Proof. by apply count_names_loop_keyless. Qed.

Lemma parse_json_method_config_keyless entries idx w :
  parse_json_method_config create_value copy_value mdstr_from_null e' entries idx w
  = parse_json_method_config create_value copy_value mdstr_from_null e entries idx w.
Proof.
  unfold parse_json_method_config, call_create_value.
  by rewrite same_value, (paths_loop_keyless _ _ more_fields).
Qed.

Lemma count_loop_keyless ms1 ms2 : ∀ n,
  count_loop (ms1 ++ e' :: ms2) n = count_loop (ms1 ++ e :: ms2) n.
Proof.
  induction ms1 as [|m ms1 IH]; intros n; simpl; [|apply IH].
  by rewrite count_names_keyless.
Qed.

Lemma methods_loop_keyless ms1 ms2 : ∀ entries idx w,
  methods_loop create_value copy_value mdstr_from_null (ms1 ++ e' :: ms2) entries idx w
  = methods_loop create_value copy_value mdstr_from_null (ms1 ++ e :: ms2) entries idx w.
Proof.
  induction ms1 as [|m ms1 IH]; intros entries idx w; simpl;
    unfold mbind, run_bind.
  - by rewrite parse_json_method_config_keyless.
  - destruct (parse_json_method_config _ _ _ m entries idx w)
      as [[[[] entries'] idx']|]; [apply IH|done..].
Qed.

Lemma fields_loop_keyless k ty v ms1 ms2 post pre : ∀ n entries w,
  fields_loop create_value copy_value malloc_zero_is_null mdstr_from_null
    (pre ++ Json k ty v (ms1 ++ e' :: ms2) :: post) n entries w
  = fields_loop create_value copy_value malloc_zero_is_null mdstr_from_null
      (pre ++ Json k ty v (ms1 ++ e :: ms2) :: post) n entries w.
Proof.
  induction pre as [|f pre IH]; intros n entries w; simpl.
  - destruct k as [k|]; [|done]. destruct (streq k "methodConfig"); [|done].
    destruct entries; [done|]. case_decide; [|done].
    rewrite count_loop_keyless. unfold mbind, run_bind.
    destruct (gpr_malloc _ _ w) as [entries' w'|]; [|done].
    by rewrite methods_loop_keyless.
  - destruct (key f) as [kf|]; [|done].
    destruct (streq kf "methodConfig"); [|apply IH].
    destruct entries; [done|]. case_decide; [|done].
    unfold mbind, run_bind.
    destruct (gpr_malloc _ _ w) as [entries' w'|]; [|done].
    destruct (methods_loop _ _ _ _ entries' 0 w')
      as [[[[] entries''] idx]|]; [|done..].
    case_decide; [apply IH | done].
Qed.
End KeylessEntryFields.

(** C10 (amended): when the factory gives the same answer for an entry
    with and without keyless fields put in, the whole call gives the same
    result, resources included, on the two documents; the compilation pass
    itself never looks at a keyless field of an entry. *)
Theorem keyless_entry_fields_skipped {V}
    (create_value : grpc_json → option V) (copy_value : V → V)
    (malloc_zero_is_null : bool) (mdstr_from_null : option string)
    (e e' : grpc_json)
    (text : string) (rk : option string) (rty : grpc_json_type)
    (rv : option string) (pre post ms1 ms2 : list grpc_json)
    (k : option string) (ty : grpc_json_type) (v : option string)
    (w : world) :
  create_value e' = create_value e →
  with_keyless (child e) (child e') →
  grpc_service_config_create_method_config_table
    create_value copy_value malloc_zero_is_null mdstr_from_null
    (ServiceConfig text
       (Json rk rty rv (pre ++ Json k ty v (ms1 ++ e' :: ms2) :: post))) w
  = grpc_service_config_create_method_config_table
      create_value copy_value malloc_zero_is_null mdstr_from_null
      (ServiceConfig text
         (Json rk rty rv (pre ++ Json k ty v (ms1 ++ e :: ms2) :: post))) w.
Proof.
  intros Hsame Hmore.
  unfold grpc_service_config_create_method_config_table. simpl.
  case_decide; [|done]. destruct rk; [done|].
  unfold mbind, run_bind.
  by rewrite (fields_loop_keyless _ _ _ _ e e' Hsame Hmore).
Qed.

Lemma keyless_entry_fields_skipped_witness :
  grpc_service_config_create_method_config_table entry_names id true None
    (document [array_node (Some "methodConfig") [svc_entry_keyless]])
    empty_world
  = grpc_service_config_create_method_config_table entry_names id true None
      (document [array_node (Some "methodConfig") [svc_entry]])
      empty_world.
Proof.
  apply (keyless_entry_fields_skipped entry_names id true None
           svc_entry svc_entry_keyless EmptyString None GRPC_JSON_OBJECT None
           [] [] [] [] (Some "methodConfig") GRPC_JSON_ARRAY None empty_world).
  - reflexivity.
  - apply with_keyless_same, with_keyless_more; [reflexivity|].
    apply with_keyless_nil.
Defined.

(** C10, as stated, fails: the entry node, keyless fields and all, goes to
    the caller's factory.  With a factory that refuses keyless fields the
    document compiles to a table, and to NULL once a keyless field is put
    into its entry. *)
Lemma keyless_entry_field_changes_result :
  (∃ table w,
     grpc_service_config_create_method_config_table keyed_fields_only id true None
       (document [array_node (Some "methodConfig") [svc_entry]]) empty_world
     = Returns (Some table) w ∧ is_Some (table !! "/svc/*")) ∧
  (∃ w,
     grpc_service_config_create_method_config_table keyed_fields_only id true None
       (document [array_node (Some "methodConfig") [svc_entry_keyless]])
       empty_world
     = Returns None w).
Proof.
  split.
  - eexists _, _. split; [vm_compute; reflexivity|]. by eexists.
  - eexists. vm_compute. reflexivity.
Qed.

(** *** Where the code departs from its own comments *)

(** C1 does not hold of the code: the second entry names no method, the
    call returns NULL at line 210, and what the first entry staged stays:
    the value copy at address 1, the reference on "/svc/*" and the
    [entries] array. *)
Theorem rejection_keeps_staged_entries (malloc_zero_is_null : bool)
    (mdstr_from_null : option string) :
  ∃ w,
    grpc_service_config_create_method_config_table entry_size id
      malloc_zero_is_null mdstr_from_null doc_valid_then_unnamed empty_world
    = Returns None w ∧
    live_values w !! 1 = Some 1 ∧
    multiplicity "/svc/*" (live_keys w) = 1 ∧
    live_buffers w = 1.
Proof.
  destruct malloc_zero_is_null;
    (eexists; split; [vm_compute; reflexivity|]); by vm_compute.
Qed.

(** C3 does not hold of the code: the pre-pass counts the "name" fields of
    an entry, not the name objects in them.  For one name array of two
    objects it counts 1, the pass has 2 paths to stage, and the second
    store falls past the end of the one-slot array. *)
Theorem prepass_counts_name_fields (malloc_zero_is_null : bool)
    (mdstr_from_null : option string) :
  count_loop [two_names_entry] 0 = 1 ∧
  paths_loop (child two_names_entry) []
    = Some [Some "/svc/Get"; Some "/svc/Put"] ∧
  ∃ w,
    grpc_service_config_create_method_config_table entry_size id
      malloc_zero_is_null mdstr_from_null doc_two_names empty_world
    = Aborts OutOfBounds w.
Proof.
  split; [reflexivity|]. split; [reflexivity|].
  destruct malloc_zero_is_null; eexists; vm_compute; reflexivity.
Qed.

(** C4 does not hold of the code: the NULL that [parse_json_method_name]
    returns for the name object is added to [paths] unchecked, so the
    entry counts one path and the staging loop hands the NULL to
    [grpc_mdstr_from_string].  Whatever that makes of it, the call does
    not return NULL; where NULL is no string, the call has no result. *)
Theorem null_path_is_staged (malloc_zero_is_null : bool)
    (mdstr_from_null : option string) :
  parse_json_method_name
    (object_node None [string_node (Some "method") "Get"]) = None ∧
  paths_loop (child no_service_entry) [] = Some [None] ∧
  (∀ w,
     grpc_service_config_create_method_config_table entry_size id
       malloc_zero_is_null mdstr_from_null doc_no_service empty_world
     ≠ Returns None w) ∧
  ∃ w,
    grpc_service_config_create_method_config_table entry_size id
      malloc_zero_is_null None doc_no_service empty_world
    = Aborts NullString w.
Proof.
  split; [reflexivity|]. split; [reflexivity|]. split.
  - intros w. destruct mdstr_from_null as [k|];
      [|destruct malloc_zero_is_null; vm_compute; discriminate].
    unfold grpc_service_config_create_method_config_table, doc_no_service,
      document. simpl. unfold mbind, run_bind, mret, run_ret. simpl.
    match goal with |- context [parse_json_method_config ?a ?b ?c ?d ?e ?f ?g] =>
      assert (∃ w1, parse_json_method_config a b c d e f g
                    = Returns (true, Some [Some (Entry k 1)], 1) w1)
        as [w1 ->] by (eexists; vm_compute; reflexivity)
    end.
    case_decide; [|discriminate].
    destruct (grpc_mdstr_hash_table_create _ _ _ _) as [table w2|]; [|discriminate].
    destruct (clean_up_loop _ _ _) as [[] w3|]; discriminate.
  - destruct malloc_zero_is_null; eexists; vm_compute; reflexivity.
Qed.

(** * Further properties *)

(** ** More on the load balancing policy *)

Lemma lb_policy_loop_untouched fields :
  Forall (λ f, is_Some (key f)) fields →
  fields_named "loadBalancingPolicy" fields = [] →
  ∀ acc, lb_policy_loop fields acc = acc.
Proof.
  induction 1 as [|f fields [k Hk] _ IH]; intros Hnone acc; [done|].
  unfold fields_named in Hnone. rewrite filter_cons in Hnone.
  simpl. rewrite Hk in *.
  destruct (streq_spec k "loadBalancingPolicy") as [->|Hne].
  - by rewrite decide_True in Hnone.
  - rewrite decide_False in Hnone by congruence. by apply IH.
Qed.

Lemma lb_policy_loop_single fields : ∀ f,
  Forall (λ f, is_Some (key f)) fields →
  fields_named "loadBalancingPolicy" fields = [f] →
  type f = GRPC_JSON_STRING →
  lb_policy_loop fields None = value f.
Proof.
  induction fields as [|g fields IH]; intros f Hkeyed Hone Hty; [done|].
  apply Forall_cons in Hkeyed as [[k Hk] Hkeyed].
  unfold fields_named in Hone. rewrite filter_cons in Hone.
  simpl. rewrite Hk in *.
  destruct (streq_spec k "loadBalancingPolicy") as [->|Hne].
  - rewrite decide_True in Hone by done. injection Hone as -> Hrest.
    rewrite decide_True by done. by apply lb_policy_loop_untouched.
  - rewrite decide_False in Hone by congruence. by apply IH.
Qed.

(** X1: a keyless root object whose fields are all keyed and which has one
    "loadBalancingPolicy" field, a string, yields the text of that field,
    wherever the field stands. *)
Theorem lb_policy_found (sc : grpc_service_config) (f : grpc_json) :
  type (json_tree sc) = GRPC_JSON_OBJECT →
  key (json_tree sc) = None →
  Forall (λ f, is_Some (key f)) (child (json_tree sc)) →
  fields_named "loadBalancingPolicy" (child (json_tree sc)) = [f] →
  type f = GRPC_JSON_STRING →
  grpc_service_config_get_lb_policy_name sc = value f.
Proof.
  intros Hty Hkey Hkeyed Hone Hstr.
  unfold grpc_service_config_get_lb_policy_name.
  rewrite decide_True by done. rewrite Hkey.
  by apply lb_policy_loop_single.
Qed.

Lemma lb_policy_found_witness :
  grpc_service_config_get_lb_policy_name
    (document [array_node (Some "methodConfig") [];
               string_node (Some "loadBalancingPolicy") "round_robin";
               string_node (Some "other") "x"])
  = Some "round_robin".
Proof.
  apply (lb_policy_found
           (document [array_node (Some "methodConfig") [];
                      string_node (Some "loadBalancingPolicy") "round_robin";
                      string_node (Some "other") "x"])
           (string_node (Some "loadBalancingPolicy") "round_robin"));
    try reflexivity.
  repeat constructor; by eexists.
Defined.

Lemma lb_policy_loop_sound fields : ∀ acc v,
  Forall string_has_text fields →
  lb_policy_loop fields acc = Some v →
  Forall (λ f, is_Some (key f)) fields ∧
  ((acc = Some v ∧ fields_named "loadBalancingPolicy" fields = []) ∨
   (acc = None ∧ ∃ f, fields_named "loadBalancingPolicy" fields = [f] ∧
                      type f = GRPC_JSON_STRING ∧ value f = Some v)).
Proof.
  induction fields as [|g fields IH]; intros acc v Htext Hloop.
  - simpl in Hloop. subst. split; [constructor|]. by left.
  - apply Forall_cons in Htext as [Hg Htext]. simpl in Hloop.
    unfold fields_named. rewrite filter_cons.
    destruct (key g) as [k|] eqn:Hk; [|done].
    destruct (streq_spec k "loadBalancingPolicy") as [->|Hne].
    + destruct acc; [done|]. case_decide as Hty; [|done].
      destruct (Hg Hty) as [t Ht]. rewrite Ht in Hloop.
      destruct (IH _ _ Htext Hloop) as [Hkeyed [[[= ->] Hnone]|[[=] _]]].
      split; [constructor; [by eexists|done]|]. right. split; [done|].
      exists g. rewrite decide_True by done. unfold fields_named in Hnone.
      by rewrite Hnone.
    + destruct (IH _ _ Htext Hloop) as [Hkeyed Hcases].
      split; [constructor; [by eexists|done]|].
      by rewrite decide_False by congruence.
Qed.

(** X2: when the call returns a policy name, the root is a keyless object,
    every top-level field has a key, and the name is the text of the one
    field keyed "loadBalancingPolicy", which is a string.  String nodes
    are taken as the parser leaves them, with their text. *)
Theorem lb_policy_sound (sc : grpc_service_config) (v : string) :
  Forall string_has_text (child (json_tree sc)) →
  grpc_service_config_get_lb_policy_name sc = Some v →
  type (json_tree sc) = GRPC_JSON_OBJECT ∧
  key (json_tree sc) = None ∧
  Forall (λ f, is_Some (key f)) (child (json_tree sc)) ∧
  ∃ f, fields_named "loadBalancingPolicy" (child (json_tree sc)) = [f] ∧
       type f = GRPC_JSON_STRING ∧ value f = Some v.
Proof.
  intros Htext. unfold grpc_service_config_get_lb_policy_name.
  case_decide as Hty; [|done]. destruct (key (json_tree sc)); [done|].
  intros Hloop.
  destruct (lb_policy_loop_sound _ _ _ Htext Hloop) as [Hkeyed [[[=] _]|[_ Hf]]].
  done.
Qed.

Lemma lb_policy_sound_witness :
  ∃ f, fields_named "loadBalancingPolicy"
         [string_node (Some "other") "x";
          string_node (Some "loadBalancingPolicy") "pick_first"] = [f] ∧
       type f = GRPC_JSON_STRING ∧ value f = Some "pick_first".
Proof.
  refine (proj2 (proj2 (proj2 (lb_policy_sound
    (document [string_node (Some "other") "x";
               string_node (Some "loadBalancingPolicy") "pick_first"])
    "pick_first" _ eq_refl)))).
  repeat constructor; by eexists.
Defined.

Lemma lb_policy_loop_wrong_type fields : ∀ acc,
  Exists (λ f, key f = Some "loadBalancingPolicy" ∧
               type f ≠ GRPC_JSON_STRING) fields →
  lb_policy_loop fields acc = None.
Proof.
  induction fields as [|g fields IH]; intros acc Hex; [inversion Hex|].
  simpl. destruct (key g) as [k|] eqn:Hk; [|done].
  apply Exists_cons in Hex as [[Hkey Hty]|Hex].
  - rewrite Hk in Hkey. injection Hkey as ->. rewrite streq_refl.
    destruct acc; [done|]. by rewrite decide_False.
  - destruct (streq k "loadBalancingPolicy"); [|by apply IH].
    destruct acc; [done|]. case_decide; [by apply IH | done].
Qed.

(** X3: a field keyed "loadBalancingPolicy" that is not a string makes the
    call return NULL, wherever it stands and whatever the other fields
    are, a well-formed policy field before it included. *)
Theorem lb_policy_wrong_type_rejects (sc : grpc_service_config) :
  Exists (λ f, key f = Some "loadBalancingPolicy" ∧
               type f ≠ GRPC_JSON_STRING) (child (json_tree sc)) →
  grpc_service_config_get_lb_policy_name sc = None.
Proof.
  intros Hex. unfold grpc_service_config_get_lb_policy_name.
  case_decide; [|done]. destruct (key (json_tree sc)); [done|].
  by apply lb_policy_loop_wrong_type.
Qed.

Lemma lb_policy_wrong_type_rejects_witness :
  grpc_service_config_get_lb_policy_name
    (document [string_node (Some "other") "x";
               array_node (Some "loadBalancingPolicy") []]) = None.
Proof.
  apply lb_policy_wrong_type_rejects. simpl.
  apply Exists_cons_tl, Exists_cons_hd. by split.
Defined.

(** ** More on name objects *)

Lemma name_loop_sound children : ∀ sn mn rs rm,
  name_loop children sn mn = Some (rs, rm) →
  Forall (λ f, is_Some (key f) ∧ type f = GRPC_JSON_STRING) children ∧
  slot_filled sn (value <$> fields_named "service" children) rs ∧
  slot_filled mn (value <$> fields_named "method" children) rm.
Proof.
  induction children as [|c children IH]; intros sn mn rs rm Hloop.
  - injection Hloop as <- <-. split; [constructor|].
    split; [destruct sn|destruct mn]; constructor.
  - simpl in Hloop. unfold fields_named. rewrite !filter_cons.
    destruct (key c) as [k|] eqn:Hk; [|done].
    case_decide as Hty; [|done].
    assert (Hc : is_Some (Some k) ∧ type c = GRPC_JSON_STRING) by (by split).
    destruct (streq_spec k "service") as [->|Hns].
    { destruct sn; [done|]. destruct (value c) as [v|] eqn:Hv; [|done].
      destruct (IH _ _ _ _ Hloop) as (Hall & Hs & Hm).
      split; [by constructor|].
      rewrite decide_True by done. rewrite decide_False by discriminate.
      split; [|done]. rewrite fmap_cons, Hv.
      unfold fields_named in Hs. inversion Hs. constructor. }
    rewrite (decide_False (P := Some k = Some "service")) by congruence.
    destruct (streq_spec k "method") as [->|Hnm].
    { destruct mn; [done|]. destruct (value c) as [v|] eqn:Hv; [|done].
      destruct (IH _ _ _ _ Hloop) as (Hall & Hs & Hm).
      split; [by constructor|]. split; [done|].
      rewrite decide_True by done. rewrite fmap_cons, Hv.
      unfold fields_named in Hm. inversion Hm. constructor. }
    rewrite (decide_False (P := Some k = Some "method")) by congruence.
    destruct (IH _ _ _ _ Hloop) as (Hall & Hs & Hm).
    split; [by constructor|]. done.
Qed.

(** X4: a path comes back only for a well-formed name object: an object
    whose fields are all keyed strings, with one "service" field and at
    most one "method" field, both with their text; the path is built from
    these two texts. *)
Theorem name_object_sound (json : grpc_json) (path : string) :
  parse_json_method_name json = Some path →
  type json = GRPC_JSON_OBJECT ∧
  Forall (λ f, is_Some (key f) ∧ type f = GRPC_JSON_STRING) (child json) ∧
  ∃ svc,
    value <$> fields_named "service" (child json) = [Some svc] ∧
    ((value <$> fields_named "method" (child json) = [] ∧
      path = "/" +:+ svc +:+ "/*") ∨
     (∃ m, value <$> fields_named "method" (child json) = [Some m] ∧
           path = "/" +:+ svc +:+ "/" +:+ m)).
Proof.
  unfold parse_json_method_name. case_decide as Hty; [|done].
  destruct (name_loop (child json) None None) as [[[svc|] mn]|] eqn:Hloop;
    [|done..].
  intros [= <-]. destruct (name_loop_sound _ _ _ _ _ Hloop) as (Hall & Hs & Hm).
  split; [done|]. split; [done|]. exists svc.
  inversion Hs; subst. split; [done|].
  inversion Hm; subst; [by left|]. right. by eexists.
Qed.

Lemma name_object_sound_witness :
  ∃ svc,
    value <$> fields_named "service"
      [string_node (Some "method") "Get"; string_node (Some "service") "svc"]
      = [Some svc] ∧
    ((value <$> fields_named "method"
        [string_node (Some "method") "Get"; string_node (Some "service") "svc"]
        = [] ∧ "/svc/Get" = "/" +:+ svc +:+ "/*") ∨
     (∃ m, value <$> fields_named "method"
             [string_node (Some "method") "Get";
              string_node (Some "service") "svc"] = [Some m] ∧
           "/svc/Get" = "/" +:+ svc +:+ "/" +:+ m)).
Proof.
  exact (proj2 (proj2 (name_object_sound
    (object_node None [string_node (Some "method") "Get";
                       string_node (Some "service") "svc"])
    "/svc/Get" eq_refl))).
Defined.

(** ** Generated paths and the lookup *)

Lemma strrchr_append pre suf :
  strrchr suf "/" = None →
  strrchr (pre +:+ "/" +:+ suf) "/" = Some (String.length pre).
Proof.
  intros Hsuf. induction pre as [|a pre IH].
  - change (strrchr (String "/" suf) "/" = Some 0). simpl. by rewrite Hsuf.
  - rewrite append_cons. simpl. by rewrite IH.
Qed.

(** X5: the lookup has a result on every path that
    [parse_json_method_name] builds, in every table. *)
Theorem lookup_defined_on_generated_paths {A} (table : gmap string A)
    (json : grpc_json) (path : string) :
  parse_json_method_name json = Some path →
  ∃ r, grpc_method_config_table_get table path = Defined_ r.
Proof.
  unfold parse_json_method_name. case_decide; [|done].
  destruct (name_loop (child json) None None) as [[[svc|] mn]|]; [|done..].
  intros [= <-].
  unfold grpc_method_config_table_get, grpc_mdstr_hash_table_get.
  destruct (table !! _); [by eexists|].
  unfold gpr_asprintf_path. simpl.
  destruct (strrchr _ "/"); by eexists.
Qed.

Lemma lookup_defined_on_generated_paths_witness :
  ∃ r, grpc_method_config_table_get (∅ : gmap string nat) "/svc/*" = Defined_ r.
Proof.
  apply (lookup_defined_on_generated_paths ∅
           (object_node None [string_node (Some "service") "svc"])).
  reflexivity.
Defined.

(** X6: the entry named by service alone serves the methods of that
    service.  For a method name without ['/'], the lookup of the path built
    from service and method gives the value under that path and otherwise
    the value under the path built from the service alone, even when the
    service name has a ['/'] in it. *)
Theorem service_path_serves_method_paths {A} (table : gmap string A)
    (svc m : string) :
  slash_free m →
  ∃ wild path,
    parse_json_method_name
      (object_node None [string_node (Some "service") svc]) = Some wild ∧
    parse_json_method_name
      (object_node None [string_node (Some "service") svc;
                         string_node (Some "method") m]) = Some path ∧
    grpc_method_config_table_get table path =
      Defined_ (match table !! path with
                | Some v => Some v
                | None => table !! wild
                end).
Proof.
  intros Hfree.
  exists (gpr_asprintf_path svc "*"), (gpr_asprintf_path svc m).
  split; [reflexivity|]. split; [reflexivity|].
  unfold grpc_method_config_table_get, grpc_mdstr_hash_table_get.
  destruct (table !! gpr_asprintf_path svc m); [done|].
  change (gpr_asprintf_path svc m) with (String "/" svc +:+ "/" +:+ m).
  rewrite strrchr_append by (by apply strrchr_slash_free).
  f_equal. rewrite substring_through_slash, append_slash_star.
  reflexivity.
Qed.

Lemma service_path_serves_method_paths_witness :
  ∃ wild path,
    parse_json_method_name
      (object_node None [string_node (Some "service") "a/b"]) = Some wild ∧
    parse_json_method_name
      (object_node None [string_node (Some "service") "a/b";
                         string_node (Some "method") "svc"]) = Some path ∧
    grpc_method_config_table_get
      (<["/a/b/*" := 7]> (∅ : gmap string nat)) path =
      Defined_ (match (<["/a/b/*" := 7]> (∅ : gmap string nat)) !! path with
                | Some v => Some v
                | None => (<["/a/b/*" := 7]> (∅ : gmap string nat)) !! wild
                end).
Proof.
  apply (service_path_serves_method_paths
           (<["/a/b/*" := 7]> (∅ : gmap string nat)) "a/b" "svc").
  apply slash_free_svc.
Defined.

(** ** The pre-pass *)

(** X7: the pre-pass adds, to the count it starts from, the number of
    fields keyed "name" of each entry, whatever the type of these fields
    and however many name objects they hold. *)
Theorem count_loop_counts_name_fields (methods : list grpc_json) (n : nat) :
  count_loop methods n
  = n + sum_list ((λ e, length (fields_named "name" (child e))) <$> methods).
Proof.
  revert n. induction methods as [|e methods IH]; intros n; [simpl; lia|].
  rewrite fmap_cons. cbn [count_loop sum_list sum_list_with].
  rewrite IH. unfold count_names_in_method_config_json.
  rewrite count_names_loop_fields. unfold id. lia.
Qed.

(** ** What a returned table says about the document *)

Ltac run_step H :=
  match type of H with
  | context [match ?m with Returns _ _ => _ | Aborts _ _ => _ end] =>
    let E := fresh "E" in destruct m eqn:E; [|discriminate H]
  end.

Section Checks.
Context {V : Type}.
Variable create_value : grpc_json → option V.
Variable copy_value : V → V.
Variable malloc_zero_is_null : bool.
Variable mdstr_from_null : option string.

Lemma add_entries_loop_returns paths : ∀ mc entries idx (w : @world V) r w',
  add_entries_loop copy_value mdstr_from_null paths mc entries idx w
    = Returns r w' →
  r.2 = idx + length paths ∧
  (is_Some r.1 ↔ is_Some entries) ∧
  (paths ≠ [] → is_Some entries) ∧
  (mdstr_from_null = None → Forall is_Some paths).
Proof.
  induction paths as [|path paths IH]; intros mc entries idx w r w' Hrun.
  - injection Hrun as <- <-. simpl. split; [lia|]. by repeat split.
  - simpl in Hrun. unfold mbind, run_bind in Hrun.
    run_step Hrun. run_step Hrun. run_step Hrun.
    apply IH in Hrun as (-> & Hsome & _ & Hall).
    split; [simpl; lia|]. split; [by rewrite Hsome, fmap_is_Some|].
    split.
    + intros _. unfold check_slot in E0. by destruct entries.
    + intros Hnull. constructor; [|by apply Hall].
      unfold grpc_mdstr_from_string in E. destruct path; [done|].
      simpl in E. by rewrite Hnull in E.
Qed.

Lemma parse_json_method_config_true e entries idx (w : @world V)
    entries' idx' w' :
  parse_json_method_config create_value copy_value mdstr_from_null
    e entries idx w = Returns (true, entries', idx') w' →
  entry_passes create_value e ∧
  idx' = idx + length (entry_paths e) ∧
  (is_Some entries' ↔ is_Some entries) ∧ is_Some entries ∧
  (mdstr_from_null = None → Forall is_Some (entry_paths e)).
Proof.
  unfold parse_json_method_config, call_create_value, entry_passes, entry_paths.
  destruct (create_value e) as [v|]; [|done].
  unfold mbind, run_bind. simpl.
  destruct (paths_loop (child e) []) as [paths|]; simpl.
  2:{ intros Hrun. by run_step Hrun. }
  destruct paths as [|path paths]; simpl.
  { intros Hrun. by run_step Hrun. }
  intros Hrun. run_step Hrun. destruct r as [entries1 idx1].
  run_step Hrun. injection Hrun as <- <- <-.
  apply (add_entries_loop_returns (path :: paths) (next_value w) entries idx)
    in E as (Hidx & Hsome & Hne & Hall).
  simpl in *. split; [by split; [eexists|]|]. split; [lia|].
  split; [done|]. split; [by apply Hne|done].
Qed.

Lemma methods_loop_true methods : ∀ entries idx (w : @world V) entries' idx' w',
  methods_loop create_value copy_value mdstr_from_null methods entries idx w
    = Returns (true, entries', idx') w' →
  Forall (entry_passes create_value) methods ∧
  idx' = idx + length (concat (entry_paths <$> methods)) ∧
  (is_Some entries' ↔ is_Some entries) ∧
  (methods ≠ [] → is_Some entries) ∧
  (mdstr_from_null = None →
   Forall (λ e, Forall is_Some (entry_paths e)) methods).
Proof.
  induction methods as [|e methods IH]; intros entries idx w entries' idx' w' Hrun.
  - injection Hrun as <- <- <-. simpl. split; [constructor|].
    split; [lia|]. by repeat split.
  - simpl in Hrun. unfold mbind, run_bind in Hrun. run_step Hrun.
    destruct r as [[[] entries1] idx1]; [|done].
    apply parse_json_method_config_true in E as (He & -> & Hs1 & Hsome & Hall1).
    apply IH in Hrun as (Hrest & -> & Hs2 & _ & Hall2).
    split; [by constructor|]. split.
    { rewrite fmap_cons. simpl. rewrite length_app. lia. }
    split; [by rewrite Hs2|]. split; [done|].
    intros Hnull. constructor; auto.
Qed.
Lemma gpr_malloc_null n (w : @world V) entries w' :
  gpr_malloc malloc_zero_is_null n w = Returns entries w' →
  (entries = None → n = 0 ∧ malloc_zero_is_null = true) ∧
  (malloc_zero_is_null = false → is_Some entries).
Proof.
  unfold gpr_malloc. destruct n, malloc_zero_is_null; simpl;
    intros [= <- <-]; split; try done; by eexists.
Qed.

Lemma fields_loop_some fields : ∀ n entries (w : @world V) n' entries' w',
  (entries = None → n = 0) →
  fields_loop create_value copy_value malloc_zero_is_null mdstr_from_null
    fields n entries w = Returns (Some (n', entries')) w' →
  Forall (λ f, is_Some (key f)) fields ∧
  Forall (λ F, key F = Some "methodConfig" →
               method_config_checked create_value mdstr_from_null F) fields ∧
  (entries' = None → n' = 0) ∧
  match entries, entries' with
  | Some _, _ => fields_named "methodConfig" fields = [] ∧ entries' = entries
  | None, None => Forall (λ E, child E = []) (fields_named "methodConfig" fields)
  | None, Some _ =>
    ∃ empties F,
      fields_named "methodConfig" fields = empties ++ [F] ∧
      Forall (λ E, child E = []) empties ∧
      (malloc_zero_is_null = false → empties = [])
  end.
Proof.
  induction fields as [|f fields IH]; intros n entries w n' entries' w' Hn Hrun.
  - injection Hrun as <- <- <-. split; [constructor|]. split; [constructor|].
    split; [done|]. destruct entries; [done|]. constructor.
  - simpl in Hrun. unfold fields_named. rewrite filter_cons.
    destruct (key f) as [k|] eqn:Hk; [|done].
    assert (Hkeyed : is_Some (Some k)) by (by eexists).
    destruct (streq_spec k "methodConfig") as [->|Hne].
    2:{ rewrite decide_False by congruence.
        destruct (IH _ _ _ _ _ _ Hn Hrun) as (H1 & H2 & H3 & H4).
        split; [by constructor|]. split; [|done].
        constructor; [congruence|done]. }
    rewrite decide_True by done.
    destruct entries as [slots|]; [done|]. specialize (Hn eq_refl) as ->.
    case_decide as Hty; [|done].
    unfold mbind, run_bind in Hrun. run_step Hrun. rename r into entries1.
    run_step Hrun. destruct r as [[[] entries2] idx]; [|done].
    case_decide as Hidx; [|done]. subst idx.
    apply gpr_malloc_null in E as [Hnull Hmz].
    apply methods_loop_true in E0 as (Hpass & Hcount & Hsome & Hmethods & Hall).
    assert (Hn2 : entries2 = None → count_loop (child f) 0 = 0).
    { intros ->. destruct entries1 as [s|]; [|by apply Hnull].
      by destruct (proj2 Hsome (ltac:(by eexists))). }
    destruct (IH _ _ _ _ _ _ Hn2 Hrun) as (H1 & H2 & H3 & H4).
    split; [by constructor|]. split.
    { constructor; [|done]. intros _. split; [done|]. split; [done|].
      split; [simpl in Hcount; lia|done]. }
    split; [done|]. destruct entries2 as [slots2|].
    + destruct H4 as [Hrest ->]. exists [], f.
      unfold fields_named in Hrest. by rewrite Hrest.
    + assert (Hempty : child f = []).
      { destruct (child f) as [|e es] eqn:Hch; [done|].
        destruct Hmethods as [s Hs]; [done|]. subst entries1.
        by destruct (proj2 Hsome (ltac:(by eexists))). }
      assert (Hmz' : malloc_zero_is_null = true).
      { destruct entries1 as [s|]; [|by apply Hnull].
        by destruct (proj2 Hsome (ltac:(by eexists))). }
      destruct entries' as [slots'|].
      * destruct H4 as (empties & F & Hrest & Hall' & _).
        exists (f :: empties), F. unfold fields_named in Hrest.
        rewrite Hrest. split; [done|]. split; [by constructor|].
        intros Hfalse. congruence.
      * by constructor.
Qed.

(** X8: a table comes back only for a document that went through every
    check of the code: the root is a keyless object, every top-level field
    has a key, and each "methodConfig" field is an array whose entries the
    factory takes, whose "name" fields are arrays with at least one element
    per entry, and whose name objects are as many as its "name" fields;
    where [grpc_mdstr_from_string] has no result on NULL, every name object
    is well formed too. *)
Theorem table_only_for_checked_documents (sc : grpc_service_config)
    (w : @world V) (table : gmap string nat) (w' : @world V) :
  grpc_service_config_create_method_config_table
    create_value copy_value malloc_zero_is_null mdstr_from_null sc w
    = Returns (Some table) w' →
  type (json_tree sc) = GRPC_JSON_OBJECT ∧
  key (json_tree sc) = None ∧
  Forall (λ f, is_Some (key f)) (child (json_tree sc)) ∧
  Forall (λ F, key F = Some "methodConfig" →
               method_config_checked create_value mdstr_from_null F)
    (child (json_tree sc)).
Proof.
  unfold grpc_service_config_create_method_config_table.
  case_decide as Hty; [|done]. destruct (key (json_tree sc)); [done|].
  unfold mbind, run_bind. intros Hrun. run_step Hrun.
  destruct r as [[n entries]|]; [|done].
  apply fields_loop_some in E as (H1 & H2 & _); done.
Qed.

(** X9: a table comes back only when a "methodConfig" field is there, and
    the duplicate check lets no second one through, but for this: where
    [gpr_malloc] gives NULL for zero bytes, "methodConfig" fields with an
    empty array that come first go unseen. *)
Theorem table_needs_one_method_config (sc : grpc_service_config)
    (w : @world V) (table : gmap string nat) (w' : @world V) :
  grpc_service_config_create_method_config_table
    create_value copy_value malloc_zero_is_null mdstr_from_null sc w
    = Returns (Some table) w' →
  ∃ empties F,
    fields_named "methodConfig" (child (json_tree sc)) = empties ++ [F] ∧
    Forall (λ E, child E = []) empties ∧
    (malloc_zero_is_null = false → empties = []).
Proof.
  unfold grpc_service_config_create_method_config_table.
  case_decide as Hty; [|done]. destruct (key (json_tree sc)); [done|].
  unfold mbind, run_bind. intros Hrun. run_step Hrun.
  destruct r as [[n [slots|]]|]; [|done..].
  by apply fields_loop_some in E as (_ & _ & _ & H4).
Qed.
End Checks.

Lemma table_only_for_checked_documents_witness :
  Forall (λ F, key F = Some "methodConfig" →
               method_config_checked entry_size None F)
    [string_node (Some "loadBalancingPolicy") "round_robin";
     array_node (Some "methodConfig") [svc_entry]].
Proof.
  refine (proj2 (proj2 (proj2 (table_only_for_checked_documents
    entry_size id true None
    (document [string_node (Some "loadBalancingPolicy") "round_robin";
               array_node (Some "methodConfig") [svc_entry]])
    empty_world _ _ _)))).
  vm_compute. reflexivity.
Defined.

Lemma table_needs_one_method_config_witness :
  ∃ empties F,
    fields_named "methodConfig"
      [array_node (Some "methodConfig") [];
       array_node (Some "methodConfig") [svc_entry]] = empties ++ [F] ∧
    Forall (λ E, child E = []) empties ∧
    (true = false → empties = []).
Proof.
  refine (table_needs_one_method_config entry_size id true None
    (document [array_node (Some "methodConfig") [];
               array_node (Some "methodConfig") [svc_entry]])
    empty_world _ _ _).
  vm_compute. reflexivity.
Defined.

(** ** The resources of one entry *)

Lemma fresh_empty_world {V} : fresh (V := V) empty_world.
Proof. intros p _. apply lookup_empty. Defined.

Section Staging.
Context {V : Type}.
Variable create_value : grpc_json → option V.
Variable copy_value : V → V.
Variable mdstr_from_null : option string.

(** X10: an entry that [parse_json_method_config] turns down leaves
    nothing behind: the array and the index are as before, and so are the
    live values (the factory's value is destroyed again), the key
    references and the arrays. *)
Theorem rejected_entry_leaves_nothing (e : grpc_json) (entries : entries_ptr)
    (idx : nat) (w : @world V) (entries' : entries_ptr) (idx' : nat)
    (w' : @world V) :
  fresh w →
  parse_json_method_config create_value copy_value mdstr_from_null
    e entries idx w = Returns (false, entries', idx') w' →
  entries' = entries ∧ idx' = idx ∧
  live_values w' = live_values w ∧
  live_keys w' = live_keys w ∧
  live_buffers w' = live_buffers w.
Proof.
  intros Hfresh.
  unfold parse_json_method_config, call_create_value.
  destruct (create_value e) as [v|].
  2:{ by intros [= <- <- <-]. }
  assert (Hgone : delete (next_value w) (<[next_value w := v]> (live_values w))
                  = live_values w).
  { rewrite delete_insert_eq. apply delete_id, Hfresh. lia. }
  unfold mbind, run_bind. simpl.
  destruct (paths_loop (child e) []) as [[|path paths]|]; simpl.
  - unfold vtable_destroy_value. simpl. rewrite lookup_insert_eq.
    intros [= <- <- <-]. simpl. by rewrite Hgone.
  - intros Hrun. run_step Hrun. destruct r as [entries1 idx1].
    by run_step Hrun.
  - unfold vtable_destroy_value. simpl. rewrite lookup_insert_eq.
    intros [= <- <- <-]. simpl. by rewrite Hgone.
Qed.
End Staging.

Lemma rejected_entry_leaves_nothing_witness :
  ∃ w',
    parse_json_method_config entry_size id None (object_node None [])
      None 0 empty_world = Returns (false, None, 0) w' ∧
    (@None (list (option grpc_mdstr_hash_table_entry)) = None ∧ 0 = 0 ∧
     live_values w' = live_values (V := nat) empty_world ∧
     live_keys w' = live_keys (V := nat) empty_world ∧
     live_buffers w' = live_buffers (V := nat) empty_world).
Proof.
  eexists. split; [vm_compute; reflexivity|].
  apply (rejected_entry_leaves_nothing entry_size id None
           (object_node None []) None 0 empty_world);
    [apply fresh_empty_world | vm_compute; reflexivity].
Defined.

(** ** Staging the entries of valid method configs *)

Open Scope nat_scope.
Set Warnings "-clear-no-such-hyp".

Lemma Forall2_elem_impl {A B} (P Q : A → B → Prop) l k :
  Forall2 P l k → (∀ x y, x ∈ l → P x y → Q x y) → Forall2 Q l k.
Proof.
  induction 1 as [|x y l k Hxy _ IH]; intros Himpl; constructor.
  - apply Himpl; [left|done].
  - apply IH. intros x' y' Hin. apply Himpl. by right.
Qed.

Lemma staged_fresh {V} kvs es (w w' : @world V) :
  fresh w → staged kvs es w w' → fresh w'.
Proof.
  intros Hfresh (_ & _ & Hrange & Hsame & Hle & _) p Hp.
  rewrite Hsame; [apply Hfresh; lia|].
  intros Hin. apply list_elem_of_fmap in Hin as (e & -> & He).
  rewrite Forall_forall in Hrange. specialize (Hrange _ He). lia.
Qed.

Lemma staged_nil {V} (w : @world V) : staged [] [] w w.
Proof.
  repeat split; try done; try constructor.
  simpl. multiset_solver.
Qed.

Lemma staged_app {V} kvs1 kvs2 es1 es2 (w w1 w2 : @world V) :
  staged kvs1 es1 w w1 → staged kvs2 es2 w1 w2 →
  staged (kvs1 ++ kvs2) (es1 ++ es2) w w2.
Proof.
  intros (Hp1 & Hnd1 & Hr1 & Hs1 & Hle1 & Hk1 & Hb1)
         (Hp2 & Hnd2 & Hr2 & Hs2 & Hle2 & Hk2 & Hb2).
  rewrite Forall_forall in Hr1, Hr2.
  assert (Hdisj : ∀ e, e ∈ es1 → entry_value e ∉ entry_value <$> es2).
  { intros e He Hin. apply list_elem_of_fmap in Hin as (e2 & Heq & He2).
    specialize (Hr1 _ He). specialize (Hr2 _ He2). lia. }
  split; [|split; [|split; [|split; [|split; [|split]]]]].
  - apply Forall2_app; [|done].
    eapply Forall2_elem_impl; [exact Hp1|].
    intros e kv He [Hkey Hlive]. split; [done|].
    rewrite Hs2; [done|]. by apply Hdisj.
  - rewrite fmap_app. apply NoDup_app. split; [done|]. split; [|done].
    intros h Hin. apply list_elem_of_fmap in Hin as (e & -> & He).
    by apply Hdisj.
  - apply Forall_app. split; apply Forall_forall; intros e He.
    + specialize (Hr1 _ He). lia.
    + specialize (Hr2 _ He). lia.
  - intros h Hh. rewrite fmap_app, elem_of_app in Hh.
    rewrite Hs2, Hs1; [done|..]; intros ?; apply Hh; auto.
  - lia.
  - rewrite Hk2, Hk1, fmap_app, list_to_set_disj_app. multiset_solver.
  - congruence.
Qed.

Lemma insert_next_slot {A} (done : list A) (k : nat) (x : A) :
  <[length done := Some x]> ((Some <$> done) ++ None :: replicate k None)
  = (Some <$> (done ++ [x])) ++ replicate k None.
Proof.
  rewrite insert_app_r_alt by (rewrite length_fmap; lia).
  rewrite length_fmap, Nat.sub_diag, fmap_app, <- app_assoc. reflexivity.
Qed.

Section StagingLoops.
Context {V : Type}.
Variable create_value : grpc_json → option V.
Variable copy_value : V → V.
Variable mdstr_from_null : option string.

Lemma staged_one (w : @world V) (mc : nat) (v : V) (p : string) :
  fresh w →
  staged [(p, copy_value v)] [Entry p (next_value w)] w
    (World (S (next_value w))
       (<[next_value w := copy_value v]> (live_values w))
       ({[+ p +]} ⊎ live_keys w) (live_buffers w)).
Proof.
  intros Hfresh. split; [|split; [|split; [|split; [|split; [|split]]]]]; simpl.
  - repeat constructor. simpl. apply lookup_insert_eq.
  - apply NoDup_singleton.
  - repeat constructor; simpl; lia.
  - intros h Hh. apply lookup_insert_ne. intros <-. apply Hh. by left.
  - lia.
  - multiset_solver.
  - done.
Qed.

Lemma add_entries_loop_staged ps : ∀ mc v done k (w : @world V),
  fresh w →
  live_values w !! mc = Some v →
  mc < next_value w →
  length ps ≤ k →
  ∃ es w',
    add_entries_loop copy_value mdstr_from_null (Some <$> ps) mc
      (Some ((Some <$> done) ++ replicate k None)) (length done) w
    = Returns (Some ((Some <$> (done ++ es))
                     ++ replicate (k - length ps) None),
               length done + length ps) w' ∧
    staged ((λ p, (p, copy_value v)) <$> ps) es w w' ∧
    next_value w' = next_value w + length ps.
Proof.
  induction ps as [|p ps IH]; intros mc v done k w Hfresh Hlive Hmc Hk.
  - exists [], w. simpl. rewrite app_nil_r, Nat.sub_0_r, Nat.add_0_r.
    split; [done|]. split; [apply staged_nil | lia].
  - destruct k as [|k]; [simpl in Hk; lia|].
    pose (w1 := World (S (next_value w))
                  (<[next_value w := copy_value v]> (live_values w))
                  ({[+ p +]} ⊎ live_keys w) (live_buffers w)).
    assert (Hfresh1 : fresh w1).
    { eapply staged_fresh; [exact Hfresh|]. by apply (staged_one w mc). }
    destruct (IH mc v (done ++ [Entry p (next_value w)]) k w1)
      as (es & w' & Hrun & Hst & Hnext); [done|..].
    { simpl. rewrite lookup_insert_ne by lia. done. }
    { simpl. lia. }
    { simpl in Hk. lia. }
    exists (Entry p (next_value w) :: es), w'.
    split; [|split].
    + rewrite fmap_cons. cbn [add_entries_loop].
      unfold mbind, run_bind, grpc_mdstr_from_string, check_slot,
        vtable_copy_value, new_value, mret, run_ret. simpl.
      rewrite decide_True by (rewrite length_app, length_fmap; simpl; lia).
      simpl. rewrite Hlive. rewrite insert_next_slot.
      rewrite length_app in Hrun. simpl in Hrun. unfold w1 in Hrun.
      replace (S (length done)) with (length done + 1) by lia.
      rewrite Hrun. rewrite <- app_assoc. simpl.
      by replace (length done + 1 + length ps)
        with (length done + S (length ps)) by lia.
    + apply (staged_app [(p, copy_value v)] _ [Entry p (next_value w)] _ w w1 w');
        [by apply (staged_one w mc)|done].
    + rewrite Hnext. simpl. lia.
Qed.
Lemma staged_length kvs es (w w' : @world V) :
  staged kvs es w w' → length es = length kvs.
Proof. intros (Hp & _). by eapply Forall2_length. Qed.

Lemma parse_json_method_config_staged e vp done k (w : @world V) :
  fresh w →
  entry_yields create_value e vp →
  length vp.2 ≤ k →
  ∃ es w',
    parse_json_method_config create_value copy_value mdstr_from_null e
      (Some ((Some <$> done) ++ replicate k None)) (length done) w
    = Returns (true,
               Some ((Some <$> (done ++ es))
                     ++ replicate (k - length vp.2) None),
               length done + length vp.2) w' ∧
    staged (entry_pairs copy_value vp) es w w' ∧
    next_value w' = S (next_value w + length vp.2).
Proof.
  destruct vp as [v ps]. intros Hfresh (Hv & Hpaths & Hne) Hk. simpl in *.
  pose (w0 := World (S (next_value w))
                (<[next_value w := v]> (live_values w))
                (live_keys w) (live_buffers w)).
  assert (Hfresh0 : fresh w0).
  { intros p Hp. simpl in *. rewrite lookup_insert_ne by lia.
    apply Hfresh. lia. }
  destruct (add_entries_loop_staged ps (next_value w) v done k w0)
    as (es & w1 & Hrun & Hst & Hnext); [done| |simpl; lia|done|].
  { simpl. apply lookup_insert_eq. }
  pose proof Hst as (Hp & Hnd & Hrange & Hsame & Hle & Hkeys & Hbufs).
  rewrite Forall_forall in Hrange.
  assert (Hmc : next_value w ∉ entry_value <$> es).
  { intros Hin. apply list_elem_of_fmap in Hin as (e' & Heq & He').
    specialize (Hrange _ He'). simpl in Hrange. lia. }
  exists es, (World (next_value w1) (delete (next_value w) (live_values w1))
                (live_keys w1) (live_buffers w1)).
  split; [|split].
  - unfold parse_json_method_config, call_create_value. rewrite Hv.
    unfold mbind, run_bind. simpl. rewrite Hpaths.
    destruct ps as [|p ps]; [done|]. rewrite fmap_cons.
    cbn [length Nat.eqb]. rewrite <- fmap_cons.
    unfold w0 in Hrun. rewrite Hrun.
    unfold mret, run_ret, vtable_destroy_value.
    rewrite (Hsame _ Hmc). simpl. by rewrite lookup_insert_eq.
  - split; [|split; [|split; [|split; [|split; [|split]]]]]; simpl.
    + eapply Forall2_elem_impl; [exact Hp|].
      intros e' kv He' [Hkey Hlive]. split; [done|].
      rewrite lookup_delete_ne; [done|].
      specialize (Hrange _ He'). simpl in Hrange. lia.
    + done.
    + apply Forall_forall. intros e' He'.
      specialize (Hrange _ He'). simpl in Hrange. lia.
    + intros h Hh. destruct (decide (h = next_value w)) as [->|Hneq].
      * rewrite lookup_delete_eq. symmetry. apply Hfresh. lia.
      * rewrite lookup_delete_ne by done. rewrite (Hsame _ Hh). simpl.
        by rewrite lookup_insert_ne.
    + simpl in Hle. lia.
    + done.
    + done.
  - simpl. rewrite Hnext. simpl. lia.
Qed.

Lemma methods_loop_staged methods vps :
  Forall2 (entry_yields create_value) methods vps →
  ∀ done k (w : @world V),
    fresh w →
    length (concat (vps.*2)) ≤ k →
    ∃ es w',
      methods_loop create_value copy_value mdstr_from_null methods
        (Some ((Some <$> done) ++ replicate k None)) (length done) w
      = Returns (true,
                 Some ((Some <$> (done ++ es))
                       ++ replicate (k - length (concat (vps.*2))) None),
                 length done + length (concat (vps.*2))) w' ∧
      staged (concat (entry_pairs copy_value <$> vps)) es w w' ∧
      next_value w' = next_value w + length methods + length (concat (vps.*2)).
Proof.
  induction 1 as [|e vp methods vps Hyields _ IH]; intros done k w Hfresh Hk.
  - exists [], w. simpl. rewrite app_nil_r, Nat.sub_0_r, !Nat.add_0_r.
    split; [done|]. split; [apply staged_nil | done].
  - rewrite fmap_cons in *. simpl in Hk. rewrite length_app in Hk.
    destruct (parse_json_method_config_staged e vp done k w)
      as (es1 & w1 & Hrun1 & Hst1 & Hnext1); [done|done|lia|].
    pose proof (staged_length _ _ _ _ Hst1) as Hlen1.
    unfold entry_pairs in Hlen1. rewrite length_fmap in Hlen1.
    destruct (IH (done ++ es1) (k - length vp.2) w1)
      as (es2 & w2 & Hrun2 & Hst2 & Hnext2);
      [by eapply staged_fresh|lia|].
    exists (es1 ++ es2), w2. split; [|split].
    + cbn [methods_loop]. unfold mbind, run_bind. rewrite Hrun1.
      rewrite length_app, Hlen1 in Hrun2. rewrite Hrun2.
      simpl. rewrite length_app, <- app_assoc.
      replace (k - length vp.2 - length (concat vps.*2))
        with (k - (length vp.2 + length (concat vps.*2))) by lia.
      by rewrite Nat.add_assoc.
    + rewrite fmap_cons. simpl. by eapply staged_app.
    + rewrite Hnext2, Hnext1. simpl. rewrite length_app. lia.
Qed.
End StagingLoops.

(** ** Building the table and cleaning up *)

Section TableLoops.
Context {V : Type}.
Variable copy_value : V → V.

End TableLoops.

(** ** Valid documents *)







Section ValidDocuments.
Context {V : Type}.
Variable create_value : grpc_json → option V.
Variable copy_value : V → V.
Variable malloc_zero_is_null : bool.
Variable mdstr_from_null : option string.

Lemma fields_loop_skip pre : ∀ rest n entries (w : @world V),
  Forall (λ f, is_Some (key f)) pre →
  fields_named "methodConfig" pre = [] →
  fields_loop create_value copy_value malloc_zero_is_null mdstr_from_null
    (pre ++ rest) n entries w
  = fields_loop create_value copy_value malloc_zero_is_null mdstr_from_null
      rest n entries w.
Proof.
  induction pre as [|f pre IH]; intros rest n entries w Hkeyed Hnone; [done|].
  apply Forall_cons in Hkeyed as [[k Hk] Hkeyed].
  unfold fields_named in Hnone. rewrite filter_cons in Hnone.
  simpl. rewrite Hk in *.
  destruct (streq_spec k "methodConfig") as [->|Hne].
  - by rewrite decide_True in Hnone.
  - rewrite decide_False in Hnone by congruence. by apply IH.
Qed.

(** X11: the staging pass over entries the factory takes and whose paths
    are all there: started on a fresh array with room for the paths, it
    succeeds, fills the first slots in document order, one per path, and
    leaves each of them with its path as key and a live copy, made by
    [copy_value], of the value of its entry; the factory's values are
    destroyed, no other value is touched and each path holds one key
    reference. *)
Theorem valid_entries_are_staged (methods : list grpc_json)
    (vps : list (V * list string)) (n : nat) (w : @world V) :
  fresh w →
  Forall2 (entry_yields create_value) methods vps →
  length (concat (vps.*2)) ≤ n →
  ∃ es w',
    methods_loop create_value copy_value mdstr_from_null methods
      (Some (replicate n None)) 0 w
    = Returns (true,
               Some ((Some <$> es)
                     ++ replicate (n - length (concat (vps.*2))) None),
               length (concat (vps.*2))) w' ∧
    staged (concat (entry_pairs copy_value <$> vps)) es w w'.
Proof.
  intros Hfresh Hyields Hn.
  destruct (methods_loop_staged create_value copy_value mdstr_from_null
              methods vps Hyields [] n w Hfresh Hn)
    as (es & w' & Hrun & Hst & _).
  exists es, w'. by split.
Qed.






(** X15: a "methodConfig" field with an empty array, the only one of the
    document, gives the empty table where [gpr_malloc] returns a block for
    zero bytes, and NULL where it returns NULL; the resources are as
    before either way. *)
Theorem empty_method_config_array (sc : grpc_service_config)
    (pre post : list grpc_json) (tv : option string) (w : @world V) :
  type (json_tree sc) = GRPC_JSON_OBJECT →
  key (json_tree sc) = None →
  child (json_tree sc)
    = pre ++ Json (Some "methodConfig") GRPC_JSON_ARRAY tv [] :: post →
  Forall (λ f, is_Some (key f)) (pre ++ post) →
  fields_named "methodConfig" (pre ++ post) = [] →
  grpc_service_config_create_method_config_table
    create_value copy_value malloc_zero_is_null mdstr_from_null sc w
  = Returns (if malloc_zero_is_null then None else Some ∅) w.
Proof.
  intros Hty Hkey Hchild Hkeyed Hnone.
  apply Forall_app in Hkeyed as [Hkpre Hkpost].
  unfold fields_named in Hnone. rewrite filter_app in Hnone.
  apply app_eq_nil in Hnone as [Hnpre Hnpost].
  unfold grpc_service_config_create_method_config_table.
  rewrite decide_True by done. rewrite Hkey, Hchild.
  unfold mbind, run_bind. rewrite fields_loop_skip by done.
  cbn [fields_loop key type child]. rewrite streq_refl.
  rewrite decide_True by done. cbn zeta. cbn [count_loop].
  unfold mbind, run_bind, gpr_malloc. cbn [Nat.eqb andb methods_loop].
  destruct malloc_zero_is_null; unfold mret, run_ret.
  - rewrite decide_True by done.
    by rewrite fields_loop_without_method_config by done.
  - rewrite decide_True by done.
    rewrite fields_loop_without_method_config by done.
    simpl. by destruct w.
Qed.
End ValidDocuments.

Lemma entries_yield_three_paths :
  Forall2 (entry_yields entry_size) [svc_entry; get_and_other_entry]
    [(1, ["/svc/*"]); (3, ["/svc/Get"; "/other/*"])].
Proof.
  constructor; [by repeat split|]. constructor; [by repeat split|].
  constructor.
Defined.

Lemma valid_entries_are_staged_witness :
  ∃ es w',
    methods_loop entry_size id None [svc_entry; get_and_other_entry]
      (Some (replicate 3 None)) 0 empty_world
    = Returns (true, Some ((Some <$> es) ++ replicate (3 - 3) None), 3) w' ∧
    staged
      (concat (entry_pairs id <$> [(1, ["/svc/*"]);
                                   (3, ["/svc/Get"; "/other/*"])]))
      es empty_world w'.
Proof.
  apply (valid_entries_are_staged entry_size id None
           [svc_entry; get_and_other_entry]
           [(1, ["/svc/*"]); (3, ["/svc/Get"; "/other/*"])] 3 empty_world).
  - apply fresh_empty_world.
  - apply entries_yield_three_paths.
  - simpl. lia.
Defined.




Lemma empty_method_config_array_witness :
  grpc_service_config_create_method_config_table entry_size id false None
    (document [array_node (Some "methodConfig") [];
               string_node (Some "loadBalancingPolicy") "round_robin"])
    empty_world
  = Returns (if false then None else Some ∅) empty_world.
Proof.
  apply (empty_method_config_array entry_size id false None
           (document [array_node (Some "methodConfig") [];
                      string_node (Some "loadBalancingPolicy") "round_robin"])
           [] [string_node (Some "loadBalancingPolicy") "round_robin"] None
           empty_world).
  - reflexivity.
  - reflexivity.
  - reflexivity.
  - repeat constructor; by eexists.
  - reflexivity.
Defined.

(** ** Documents whose counts do not match, and late rejections *)

Lemma staged_same {V} kvs es (w w1 w2 : @world V) :
  staged kvs es w w1 →
  live_values w2 = live_values w1 → live_keys w2 = live_keys w1 →
  live_buffers w2 = live_buffers w1 → next_value w1 ≤ next_value w2 →
  staged kvs es w w2.
Proof.
  intros (Hp & Hnd & Hrange & Hsame & Hle & Hkeys & Hbufs) Hv Hk Hb Hn.
  split; [|split; [|split; [|split; [|split; [|split]]]]].
  - by rewrite Hv.
  - done.
  - eapply Forall_impl; [exact Hrange|]. simpl. intros e He. lia.
  - by rewrite Hv.
  - lia.
  - by rewrite Hk.
  - by rewrite Hb.
Qed.

Section Mismatch.
Context {V : Type}.
Variable create_value : grpc_json → option V.
Variable copy_value : V → V.
Variable malloc_zero_is_null : bool.
Variable mdstr_from_null : option string.

Lemma methods_loop_staged_then methods vps :
  Forall2 (entry_yields create_value) methods vps →
  ∀ rest done k (w : @world V),
    fresh w →
    length (concat (vps.*2)) ≤ k →
    ∃ es w',
      methods_loop create_value copy_value mdstr_from_null (methods ++ rest)
        (Some ((Some <$> done) ++ replicate k None)) (length done) w
      = methods_loop create_value copy_value mdstr_from_null rest
          (Some ((Some <$> (done ++ es))
                 ++ replicate (k - length (concat (vps.*2))) None))
          (length done + length (concat (vps.*2))) w' ∧
      staged (concat (entry_pairs copy_value <$> vps)) es w w'.
Proof.
  induction 1 as [|e vp methods vps Hyields _ IH];
    intros rest done k w Hfresh Hk.
  - exists [], w. simpl. rewrite app_nil_r, Nat.sub_0_r, !Nat.add_0_r.
    split; [done|apply staged_nil].
  - rewrite fmap_cons in *. simpl in Hk. rewrite length_app in Hk.
    destruct (parse_json_method_config_staged create_value copy_value
                mdstr_from_null e vp done k w)
      as (es1 & w1 & Hrun1 & Hst1 & Hnext1); [done|done|lia|].
    pose proof (staged_length _ _ _ _ Hst1) as Hlen1.
    unfold entry_pairs in Hlen1. rewrite length_fmap in Hlen1.
    destruct (IH rest (done ++ es1) (k - length vp.2) w1)
      as (es2 & w2 & Hrun2 & Hst2); [by eapply staged_fresh|lia|].
    exists (es1 ++ es2), w2. split.
    + rewrite <- app_comm_cons. cbn [methods_loop].
      unfold mbind, run_bind. rewrite Hrun1.
      rewrite length_app, Hlen1 in Hrun2. rewrite Hrun2.
      simpl. rewrite length_app, <- app_assoc.
      replace (k - length vp.2 - length (concat vps.*2))
        with (k - (length vp.2 + length (concat vps.*2))) by lia.
      by rewrite Nat.add_assoc.
    + rewrite fmap_cons. simpl. by eapply staged_app.
Qed.

Lemma add_entries_loop_overflow ps : ∀ mc v done k (w : @world V),
  fresh w →
  live_values w !! mc = Some v →
  mc < next_value w →
  k < length ps →
  ∃ w',
    add_entries_loop copy_value mdstr_from_null (Some <$> ps) mc
      (Some ((Some <$> done) ++ replicate k None)) (length done) w
    = Aborts OutOfBounds w'.
Proof.
  induction ps as [|p ps IH]; intros mc v done k w Hfresh Hlive Hmc Hk;
    [simpl in Hk; lia|].
  rewrite fmap_cons. cbn [add_entries_loop].
  unfold mbind, run_bind, grpc_mdstr_from_string, check_slot,
    vtable_copy_value, new_value, mret, run_ret. simpl.
  destruct k as [|k].
  - rewrite decide_False
      by (simpl; rewrite app_nil_r, length_fmap; lia).
    by eexists.
  - rewrite decide_True by (rewrite length_app, length_fmap; simpl; lia).
    simpl. rewrite Hlive. rewrite insert_next_slot.
    pose (w1 := World (S (next_value w))
                  (<[next_value w := copy_value v]> (live_values w))
                  ({[+ p +]} ⊎ live_keys w) (live_buffers w)).
    destruct (IH mc v (done ++ [Entry p (next_value w)]) k w1)
      as (w' & Hrun).
    { eapply staged_fresh; [exact Hfresh|]. by apply (staged_one _ w mc). }
    { simpl. by rewrite lookup_insert_ne by lia. }
    { simpl. lia. }
    { simpl in Hk. lia. }
    exists w'. rewrite length_app in Hrun. simpl in Hrun. unfold w1 in Hrun.
    replace (S (length done)) with (length done + 1) by lia. exact Hrun.
Qed.

Lemma parse_json_method_config_overflow e vp done k (w : @world V) :
  fresh w →
  entry_yields create_value e vp →
  k < length vp.2 →
  ∃ w',
    parse_json_method_config create_value copy_value mdstr_from_null e
      (Some ((Some <$> done) ++ replicate k None)) (length done) w
    = Aborts OutOfBounds w'.
Proof.
  destruct vp as [v ps]. intros Hfresh (Hv & Hpaths & Hne) Hk. simpl in *.
  pose (w0 := World (S (next_value w))
                (<[next_value w := v]> (live_values w))
                (live_keys w) (live_buffers w)).
  destruct (add_entries_loop_overflow ps (next_value w) v done k w0)
    as (w' & Hrun); [|simpl; apply lookup_insert_eq|simpl; lia|done|].
  { intros p Hp. simpl in *. rewrite lookup_insert_ne by lia.
    apply Hfresh. lia. }
  exists w'.
  unfold parse_json_method_config, call_create_value. rewrite Hv.
  unfold mbind, run_bind. simpl. rewrite Hpaths.
  destruct ps as [|p ps]; [done|]. rewrite fmap_cons.
  cbn [length Nat.eqb]. rewrite <- fmap_cons.
  unfold w0 in Hrun. by rewrite Hrun.
Qed.

Lemma methods_loop_overflow methods vps :
  Forall2 (entry_yields create_value) methods vps →
  ∀ done k (w : @world V),
    fresh w →
    k < length (concat (vps.*2)) →
    ∃ w',
      methods_loop create_value copy_value mdstr_from_null methods
        (Some ((Some <$> done) ++ replicate k None)) (length done) w
      = Aborts OutOfBounds w'.
Proof.
  induction 1 as [|e vp methods vps Hyields _ IH]; intros done k w Hfresh Hk;
    [simpl in Hk; lia|].
  rewrite fmap_cons in Hk. simpl in Hk. rewrite length_app in Hk.
  cbn [methods_loop]. unfold mbind, run_bind.
  destruct (decide (length vp.2 ≤ k)) as [Hfits|Hover].
  - destruct (parse_json_method_config_staged create_value copy_value
                mdstr_from_null e vp done k w)
      as (es1 & w1 & Hrun1 & Hst1 & Hnext1); [done..|].
    pose proof (staged_length _ _ _ _ Hst1) as Hlen1.
    unfold entry_pairs in Hlen1. rewrite length_fmap in Hlen1.
    destruct (IH (done ++ es1) (k - length vp.2) w1) as (w' & Hrun);
      [by eapply staged_fresh|lia|].
    exists w'. rewrite Hrun1. rewrite length_app, Hlen1 in Hrun. exact Hrun.
  - destruct (parse_json_method_config_overflow e vp done k w)
      as (w' & Hrun); [done|done|lia|].
    exists w'. by rewrite Hrun.
Qed.

Lemma methods_loop_null_buffer e methods vp idx (w : @world V) :
  entry_yields create_value e vp →
  ∃ w',
    methods_loop create_value copy_value mdstr_from_null (e :: methods)
      None idx w
    = Aborts NullBuffer w'.
Proof.
  destruct vp as [v ps]. intros (Hv & Hpaths & Hne). simpl in *.
  cbn [methods_loop].
  unfold mbind, run_bind, parse_json_method_config, call_create_value.
  rewrite Hv. unfold mbind, run_bind. simpl. rewrite Hpaths.
  destruct ps as [|p ps]; [done|]. simpl. by eexists.
Qed.

Lemma parse_json_method_config_rejects e entries idx (w : @world V) :
  fresh w →
  create_value e = None ∨ entry_paths e = [] →
  ∃ w',
    parse_json_method_config create_value copy_value mdstr_from_null
      e entries idx w = Returns (false, entries, idx) w' ∧
    live_values w' = live_values w ∧
    live_keys w' = live_keys w ∧
    live_buffers w' = live_buffers w ∧
    next_value w ≤ next_value w'.
Proof.
  intros Hfresh Hbad.
  unfold parse_json_method_config, call_create_value.
  destruct (create_value e) as [v|] eqn:Hv.
  2:{ exists w. by repeat split. }
  destruct Hbad as [|Hbad]; [done|].
  assert (Hgone : delete (next_value w) (<[next_value w := v]> (live_values w))
                  = live_values w).
  { rewrite delete_insert_eq. apply delete_id, Hfresh. lia. }
  unfold mbind, run_bind, entry_paths in *. simpl.
  destruct (paths_loop (child e) []) as [paths|]; simpl in Hbad.
  - subst paths. simpl. unfold vtable_destroy_value. simpl.
    rewrite lookup_insert_eq. eexists. split; [done|]. simpl.
    rewrite Hgone. repeat split; lia.
  - unfold vtable_destroy_value. simpl.
    rewrite lookup_insert_eq. eexists. split; [done|]. simpl.
    rewrite Hgone. repeat split; lia.
Qed.

(** X16: fewer name objects than "name" fields.  For a "methodConfig"
    array, the first of the document, whose entries the factory takes and
    whose paths are all there, but fewer than the pre-pass counts (an empty
    "name" array beside a filled one), the call stages every path and then
    fails [GPR_ASSERT(idx == num_entries)]: it does not return. *)
Theorem fewer_paths_fail_the_assertion (sc : grpc_service_config)
    (pre post methods : list grpc_json) (tv : option string)
    (vps : list (V * list string)) (w : @world V) :
  fresh w →
  type (json_tree sc) = GRPC_JSON_OBJECT →
  key (json_tree sc) = None →
  child (json_tree sc)
    = pre ++ Json (Some "methodConfig") GRPC_JSON_ARRAY tv methods :: post →
  Forall (λ f, is_Some (key f)) pre →
  fields_named "methodConfig" pre = [] →
  Forall2 (entry_yields create_value) methods vps →
  length (concat (vps.*2)) < count_loop methods 0 →
  ∃ w',
    grpc_service_config_create_method_config_table
      create_value copy_value malloc_zero_is_null mdstr_from_null sc w
    = Aborts AssertionFailed w'.
Proof.
  intros Hfresh Hty Hkey Hchild Hkeyed Hnone Hyields Hless.
  set (count := count_loop methods 0) in *.
  pose (wb := World (next_value w) (live_values w) (live_keys w)
                (S (live_buffers w))).
  destruct (methods_loop_staged create_value copy_value mdstr_from_null
              methods vps Hyields [] count wb)
    as (es & w1 & Hrun1 & _); [done|lia|].
  simpl in Hrun1. exists w1.
  unfold grpc_service_config_create_method_config_table.
  rewrite decide_True by done. rewrite Hkey, Hchild.
  unfold mbind, run_bind. rewrite fields_loop_skip by done.
  cbn [fields_loop key type child]. rewrite streq_refl.
  rewrite decide_True by done. cbn zeta. fold count.
  unfold mbind, run_bind, gpr_malloc.
  rewrite (proj2 (Nat.eqb_neq count 0)) by lia. cbn [andb].
  fold wb. rewrite Hrun1. by rewrite decide_False by lia.
Qed.

(** X17: more name objects than "name" fields.  For such an array with
    more paths than the pre-pass counts (a "name" array of two name
    objects), the staging loop stores past the end of [entries], or through
    the NULL that [gpr_malloc] gave for a count of zero: the call has no
    defined result. *)
Theorem more_paths_overrun_the_array (sc : grpc_service_config)
    (pre post methods : list grpc_json) (tv : option string)
    (vps : list (V * list string)) (w : @world V) :
  fresh w →
  type (json_tree sc) = GRPC_JSON_OBJECT →
  key (json_tree sc) = None →
  child (json_tree sc)
    = pre ++ Json (Some "methodConfig") GRPC_JSON_ARRAY tv methods :: post →
  Forall (λ f, is_Some (key f)) pre →
  fields_named "methodConfig" pre = [] →
  Forall2 (entry_yields create_value) methods vps →
  count_loop methods 0 < length (concat (vps.*2)) →
  ∃ w',
    grpc_service_config_create_method_config_table
      create_value copy_value malloc_zero_is_null mdstr_from_null sc w
    = Aborts (if Nat.eqb (count_loop methods 0) 0 && malloc_zero_is_null
              then NullBuffer else OutOfBounds) w'.
Proof.
  intros Hfresh Hty Hkey Hchild Hkeyed Hnone Hyields Hmore.
  set (count := count_loop methods 0) in *.
  unfold grpc_service_config_create_method_config_table.
  rewrite decide_True by done. rewrite Hkey, Hchild.
  unfold mbind, run_bind. rewrite fields_loop_skip by done.
  cbn [fields_loop key type child]. rewrite streq_refl.
  rewrite decide_True by done. cbn zeta. fold count.
  unfold mbind, run_bind, gpr_malloc.
  destruct (Nat.eqb count 0 && malloc_zero_is_null).
  - destruct Hyields as [|e vp methods' vps' Hy _]; [simpl in Hmore; lia|].
    destruct (methods_loop_null_buffer e methods' vp 0 w Hy) as (w' & Hrun).
    exists w'. by rewrite Hrun.
  - pose (wb := World (next_value w) (live_values w) (live_keys w)
                  (S (live_buffers w))).
    destruct (methods_loop_overflow methods vps Hyields [] count wb)
      as (w' & Hrun); [done|done|].
    simpl in Hrun. exists w'. fold wb. by rewrite Hrun.
Qed.

(** X18: a rejection that comes late keeps what was staged.  When entries
    the factory takes, with all their paths and room for them, are followed
    by an entry that is turned down, the call returns NULL at once: the
    staged entries of the earlier ones are all still there, each with its
    live value copy and its key reference, and so is the [entries] array,
    if one was allocated. *)
Theorem late_rejection_keeps_the_staged (sc : grpc_service_config)
    (pre post methods1 methods2 : list grpc_json) (e : grpc_json)
    (tv : option string) (vps : list (V * list string)) (w : @world V) :
  fresh w →
  type (json_tree sc) = GRPC_JSON_OBJECT →
  key (json_tree sc) = None →
  child (json_tree sc)
    = pre ++ Json (Some "methodConfig") GRPC_JSON_ARRAY tv
               (methods1 ++ e :: methods2) :: post →
  Forall (λ f, is_Some (key f)) pre →
  fields_named "methodConfig" pre = [] →
  Forall2 (entry_yields create_value) methods1 vps →
  create_value e = None ∨ entry_paths e = [] →
  length (concat (vps.*2)) ≤ count_loop (methods1 ++ e :: methods2) 0 →
  ∃ es w',
    grpc_service_config_create_method_config_table
      create_value copy_value malloc_zero_is_null mdstr_from_null sc w
    = Returns None w' ∧
    staged (concat (entry_pairs copy_value <$> vps)) es
      (World (next_value w) (live_values w) (live_keys w)
         (if Nat.eqb (count_loop (methods1 ++ e :: methods2) 0) 0
             && malloc_zero_is_null
          then live_buffers w else S (live_buffers w))) w'.
Proof.
  intros Hfresh Hty Hkey Hchild Hkeyed Hnone Hyields Hbad Hroom.
  set (count := count_loop (methods1 ++ e :: methods2) 0) in *.
  unfold grpc_service_config_create_method_config_table.
  rewrite decide_True by done. rewrite Hkey, Hchild.
  unfold mbind, run_bind. rewrite fields_loop_skip by done.
  cbn [fields_loop key type child]. rewrite streq_refl.
  rewrite decide_True by done. cbn zeta. fold count.
  unfold mbind, run_bind, gpr_malloc.
  destruct (Nat.eqb count 0 && malloc_zero_is_null) eqn:Hnull.
  - apply andb_prop in Hnull as [Hzero _]. apply Nat.eqb_eq in Hzero.
    assert (methods1 = [] ∧ vps = []) as [-> ->].
    { destruct Hyields as [|e1 [v1 ps1] ? ? (_ & _ & Hne) _]; [done|].
      rewrite fmap_cons in Hroom. simpl in *. rewrite length_app in Hroom.
      destruct ps1; [done|]. simpl in Hroom. lia. }
    destruct (parse_json_method_config_rejects e None 0 w Hfresh Hbad)
      as (w' & Hrun & Hv & Hk & Hb & Hn).
    exists [], w'. simpl. unfold mbind, run_bind. rewrite Hrun.
    split; [done|]. eapply staged_same; [apply staged_nil|done..].
  - pose (wb := World (next_value w) (live_values w) (live_keys w)
                  (S (live_buffers w))).
    destruct (methods_loop_staged_then methods1 vps Hyields (e :: methods2)
                [] count wb) as (es & w1 & Hrun1 & Hst); [done|done|].
    simpl in Hrun1.
    destruct (parse_json_method_config_rejects e
                (Some ((Some <$> es)
                       ++ replicate (count - length (concat vps.*2)) None))
                (length (concat vps.*2)) w1)
      as (w' & Hrun & Hv & Hk & Hb & Hn);
      [exact (staged_fresh _ _ wb w1 Hfresh Hst)|done|].
    exists es, w'. fold wb. rewrite Hrun1. cbn [methods_loop].
    unfold mbind, run_bind. rewrite Hrun. split; [done|].
    by eapply staged_same.
Qed.
End Mismatch.

(** X19: a malformed name object that comes first in the first entry.
    Where [grpc_mdstr_from_string] has no result on NULL, a first entry
    that the factory takes and whose path vector starts with the NULL of
    a malformed name object makes the call read that NULL as a string, for
    every document and every size of the array: it is not rejected. *)
Theorem null_first_path_is_read {V} (create_value : grpc_json → option V)
    (copy_value : V → V) (malloc_zero_is_null : bool)
    (sc : grpc_service_config) (pre post methods : list grpc_json)
    (e : grpc_json) (tv : option string) (rest : list (option string))
    (w : @world V) :
  type (json_tree sc) = GRPC_JSON_OBJECT →
  key (json_tree sc) = None →
  child (json_tree sc)
    = pre ++ Json (Some "methodConfig") GRPC_JSON_ARRAY tv (e :: methods)
          :: post →
  Forall (λ f, is_Some (key f)) pre →
  fields_named "methodConfig" pre = [] →
  is_Some (create_value e) →
  entry_paths e = None :: rest →
  ∃ w',
    grpc_service_config_create_method_config_table
      create_value copy_value malloc_zero_is_null None sc w
    = Aborts NullString w'.
Proof.
  intros Hty Hkey Hchild Hkeyed Hnone [v Hv] Hpaths.
  unfold grpc_service_config_create_method_config_table.
  rewrite decide_True by done. rewrite Hkey, Hchild.
  unfold mbind, run_bind. rewrite fields_loop_skip by done.
  cbn [fields_loop key type child]. rewrite streq_refl.
  rewrite decide_True by done. cbn zeta.
  unfold mbind, run_bind, gpr_malloc. cbn [methods_loop].
  unfold mbind, run_bind, parse_json_method_config, call_create_value.
  rewrite Hv. unfold entry_paths in Hpaths.
  destruct (paths_loop (child e) []) as [paths|]; [|done].
  simpl in Hpaths. subst paths.
  destruct (_ && malloc_zero_is_null); simpl; by eexists.
Qed.

Lemma fewer_paths_fail_the_assertion_witness :
  ∃ w',
    grpc_service_config_create_method_config_table entry_size id true None
      (document [array_node (Some "methodConfig") [empty_name_entry]])
      empty_world
    = Aborts AssertionFailed w'.
Proof.
  apply (fewer_paths_fail_the_assertion entry_size id true None
           (document [array_node (Some "methodConfig") [empty_name_entry]])
           [] [] [empty_name_entry] None [(2, ["/svc/*"])] empty_world).
  - apply fresh_empty_world.
  - reflexivity.
  - reflexivity.
  - reflexivity.
  - constructor.
  - reflexivity.
  - constructor; [by repeat split|constructor].
  - vm_compute. lia.
Defined.

Lemma more_paths_overrun_the_array_witness :
  ∃ w',
    grpc_service_config_create_method_config_table entry_size id true None
      doc_two_names empty_world
    = Aborts (if Nat.eqb (count_loop [two_names_entry] 0) 0 && true
              then NullBuffer else OutOfBounds) w'.
Proof.
  apply (more_paths_overrun_the_array entry_size id true None doc_two_names
           [] [] [two_names_entry] None [(1, ["/svc/Get"; "/svc/Put"])]
           empty_world).
  - apply fresh_empty_world.
  - reflexivity.
  - reflexivity.
  - reflexivity.
  - constructor.
  - reflexivity.
  - constructor; [by repeat split|constructor].
  - vm_compute. lia.
Defined.

Lemma late_rejection_keeps_the_staged_witness :
  ∃ es w',
    grpc_service_config_create_method_config_table entry_size id true None
      doc_valid_then_unnamed empty_world
    = Returns None w' ∧
    staged (concat (entry_pairs id <$> [(1, ["/svc/*"])])) es
      (World 0 ∅ ∅
         (if Nat.eqb (count_loop ([svc_entry] ++ object_node None [] :: []) 0) 0
             && true
          then 0 else 1)) w'.
Proof.
  apply (late_rejection_keeps_the_staged entry_size id true None
           doc_valid_then_unnamed [] [] [svc_entry] [] (object_node None [])
           None [(1, ["/svc/*"])] empty_world).
  - apply fresh_empty_world.
  - reflexivity.
  - reflexivity.
  - reflexivity.
  - constructor.
  - reflexivity.
  - constructor; [by repeat split|constructor].
  - by right.
  - vm_compute. lia.
Defined.

Lemma null_first_path_is_read_witness :
  ∃ w',
    grpc_service_config_create_method_config_table entry_size id true None
      doc_no_service empty_world
    = Aborts NullString w'.
Proof.
  apply (null_first_path_is_read entry_size id true doc_no_service
           [] [] [] no_service_entry None [] empty_world).
  - reflexivity.
  - reflexivity.
  - reflexivity.
  - constructor.
  - reflexivity.
  - by eexists.
  - reflexivity.
Defined.
